(** * Cantabular query examples: row expansion of a flat contingency table

    A shallow embedding of the Go examples
      - [golang/cmd/cantabular-query-simple/main.go]   (in-memory variant)
      - [golang/cmd/cantabular-query-streamed/main.go] (streaming variant)
    together with the properties their specification states about them.

    Go [int] values are modelled as [Z].  The only arithmetic the programs
    perform on them is [dimIndices[j] += 1], and an index is incremented at
    most once per element of a slice, so no value ever leaves the range of
    a machine integer and no wrap-around has to be written out.  A Go panic
    is an explicit outcome; state that survives a panic (rows already handed
    to the CSV writer) is threaded explicitly. *)

From Stdlib Require Import ZArith List String Ascii Lia DecimalString.
From stdpp Require Import base list strings gmap.
Import ListNotations.
Open Scope string_scope.
Open Scope list_scope.
Open Scope Z_scope.

(** ** Outcomes *)

(** What a Go panic (or [log.Fatalf]) carries.  [PanicExpected] stands for
    the message [fmt.Sprintf("Expected %q but got %q", name, gotName)],
    [FatalUnexpectedError] for [log.Fatalf("Unexpected error: %v", errs)]
    and [FatalDecodeError] for [log.Fatal(err)] on a response that does not
    decode; [OutOfFuel] is not a Go panic but the bound of a modelled loop,
    which no run reaches ([graphqlJSONToCSV_total]). *)
Inductive panic : Type :=
| PanicString (msg : string)
| PanicExpected (name gotName : string)
| FatalUnexpectedError (messages : list string)
| FatalDecodeError
| PanicDecodeError
| StructuralError
| IndexOutOfRange
| OutOfFuel.

Inductive result (A : Type) : Type :=
| Ok (a : A)
| Panicked (p : panic).
Arguments Ok {A} a.
Arguments Panicked {A} p.

(** State-and-panic monad: the state reached when a panic is raised is kept,
    because output written before the panic stays written. *)
Definition M (Σ A : Type) : Type := Σ -> Σ * result A.

Definition ret {Σ A} (a : A) : M Σ A := fun s => (s, Ok a).
Definition raise {Σ A} (p : panic) : M Σ A := fun s => (s, Panicked p).
Definition bind {Σ A B} (m : M Σ A) (k : A -> M Σ B) : M Σ B :=
  fun s => match m s with
           | (s', Ok a) => k a s'
           | (s', Panicked p) => (s', Panicked p)
           end.
Definition lift {Σ A} (r : result A) : M Σ A := fun s => (s, r).
Definition modify {Σ} (f : Σ -> Σ) : M Σ unit := fun s => (f s, Ok tt).

Declare Scope go_scope.
Delimit Scope go_scope with go.
Notation "x <- m ;; k" := (bind m (fun x => k))
  (at level 100, m at next level, right associativity) : go_scope.
Notation "m ;;; k" := (bind m (fun _ => k))
  (at level 100, right associativity) : go_scope.
Open Scope go_scope.

(** Sequencing of pure fallible steps. *)
Definition rbind {A B} (r : result A) (k : A -> result B) : result B :=
  match r with
  | Ok a => k a
  | Panicked p => Panicked p
  end.
Notation "x <~ r ;; k" := (rbind r (fun x => k))
  (at level 100, r at next level, right associativity) : go_scope.

(** ** Data model (the [type ( ... )] block of both Go programs) *)

Record Category : Type := mkCategory { cat_Code : string; cat_Label : string }.
Record Variable_ : Type := mkVariable { var_Name : string; var_Label : string }.
Record Dimension : Type := mkDimension {
  dim_Count : Z;
  dim_Categories : list Category;
  dim_Variable : Variable_ }.
Record Table : Type := mkTable {
  tbl_Dimensions : list Dimension;
  tbl_Values : list Z;
  tbl_Error : string }.
Record Row : Type := mkRow { row_Categories : list Category; row_Count : Z }.
Record GraphqlError : Type := mkGraphqlError { err_Message : string }.
Record Response : Type := mkResponse {
  resp_Table : Table;            (* Data.Dataset.Table *)
  resp_Errors : list GraphqlError }.

(** The zero value of [Category]. *)
Definition zeroCategory : Category := mkCategory "" "".

(** ** Slices *)

(** [s[k]] for a Go [int] index: a runtime panic outside [0 <= k < len(s)]. *)
Definition index {A} (s : list A) (k : Z) : result A :=
  if k <? 0 then Panicked IndexOutOfRange
  else match s !! Z.to_nat k with
       | Some x => Ok x
       | None => Panicked IndexOutOfRange
       end.

(** [s[j]] where [j] is produced by [range] or counts down to zero. *)
Definition at_ {A} (s : list A) (j : nat) : result A :=
  match s !! j with
  | Some x => Ok x
  | None => Panicked IndexOutOfRange
  end.

(** ** cantabular-query-simple: [Table.populateRow] *)

(** The body of [for j, k := range indices]: one category is copied into the
    reused row per dimension. *)
Fixpoint populateRow_range (t : Table) (rowCats : list Category)
    (j : nat) (indices : list Z) : result (list Category) :=
  match indices with
  | [] => Ok rowCats
  | k :: rest =>
      dim <~ at_ (tbl_Dimensions t) j ;;
      dimCat <~ index (dim_Categories dim) k ;;
      _ <~ at_ rowCats j ;;
      populateRow_range t
        (<[j := mkCategory (cat_Code dimCat) (cat_Label dimCat)]> rowCats)
        (S j) rest
  end.

Definition populateRow (t : Table) (row : Row) (indices : list Z) (i : nat)
    : result Row :=
  cats <~ populateRow_range t (row_Categories row) 0 indices ;;
  v <~ at_ (tbl_Values t) i ;;
  Ok (mkRow cats v).

(** ** cantabular-query-simple: [Table.ForEachRow] *)

(** The inner loop [j := len(dimIndices) - 1; for j >= 0 { ... }], with
    [n = j + 1] positions still to the left of (and including) [j]. *)
Fixpoint carry (dimCounts dimIndices : list Z) (n : nat) : result (list Z) :=
  match n with
  | O => Ok dimIndices
  | S j =>
      x <~ at_ dimIndices j ;;
      let dimIndices := <[j := x + 1]> dimIndices in
      c <~ at_ dimCounts j ;;
      if x + 1 <? c then Ok dimIndices
      else carry dimCounts (<[j := 0]> dimIndices) j
  end.

(** The loop [for i := range t.Values].  The callback is a state update of
    its observer; it is additionally handed the current [dimIndices] as a
    ghost argument, which [ForEachRow] discards. *)
Fixpoint ForEachRow_range {Σ} (t : Table) (cb : list Z -> Row -> Σ -> Σ)
    (dimCounts : list Z) (rng : list nat) (row : Row) (dimIndices : list Z)
    : M Σ unit :=
  match rng with
  | [] => ret tt
  | i :: rng' =>
      row' <- lift (populateRow t row dimIndices i) ;;
      modify (cb dimIndices row') ;;;
      dimIndices' <- lift (carry dimCounts dimIndices (length dimIndices)) ;;
      ForEachRow_range t cb dimCounts rng' row' dimIndices'
  end.

Definition ForEachRow_ghost {Σ} (t : Table) (cb : list Z -> Row -> Σ -> Σ)
    : M Σ unit :=
  if negb (String.eqb (tbl_Error t) "") then raise (PanicString (tbl_Error t))
  else
    let numDimensions := length (tbl_Dimensions t) in
    let dimCounts := dim_Count <$> tbl_Dimensions t in
    let dimIndices := replicate numDimensions 0 in
    let row := mkRow (replicate numDimensions zeroCategory) 0 in
    ForEachRow_range t cb dimCounts (seq 0 (length (tbl_Values t)))
      row dimIndices.

Definition ForEachRow {Σ} (t : Table) (cb : Row -> Σ -> Σ) : M Σ unit :=
  ForEachRow_ghost t (fun _ => cb).

(** ** cantabular-query-simple: [Table.Header] and the tail of [main] *)

Definition Header (t : Table) : list string :=
  ((fun d => var_Label (dim_Variable d)) <$> tbl_Dimensions t) ++ ["count"].

(** [strconv.Itoa]. *)
Definition Itoa (z : Z) : string := NilZero.string_of_int (Z.to_int z).

(** The CSV writer: the records handed to [cw.Write], in order.  Write
    errors are sticky and only inspected at the final flush; the sink is
    taken to accept every record. *)
Definition Sink : Type := list (list string).
Definition Write (record : list string) (cw : Sink) : Sink := cw ++ [record].

(** The callback [main] passes to [ForEachRow]. *)
Definition writeRow (row : Row) (cw : Sink) : Sink :=
  Write ((cat_Label <$> row_Categories row) ++ [Itoa (row_Count row)]) cw.

(** [main] from "Check for table errors" on.  [log.Fatalf] exits before the
    writer is created; a panic of [ForEachRow] still runs the deferred
    flush, so the header reaches the output. *)
Definition main_simple (gqlResp : Response) : M Sink unit :=
  if (0 <? length (resp_Errors gqlResp))%nat
  then raise (FatalUnexpectedError (err_Message <$> resp_Errors gqlResp))
  else
    let table := resp_Table gqlResp in
    modify (Write (Header table)) ;;;
    ForEachRow table writeRow.

(** ** Mixed-radix numbering of cells *)

(** [product(dim.count for dim in dimensions)]. *)
Definition product (counts : list Z) : Z := fold_right Z.mul 1 counts.

(** The order of the specification: a row-major nested loop over the
    dimensions, the outer (first) dimension varying slowest. *)
Fixpoint row_major_nested_loop (counts : list Z) : list (list Z) :=
  match counts with
  | [] => [[]]
  | c :: cs =>
      flat_map (fun k => cons k <$> row_major_nested_loop cs) (seqZ 0 c)
  end.

(** The index vector of cell number [n], and the cell number of a vector. *)
Fixpoint digits (counts : list Z) (n : Z) : list Z :=
  match counts with
  | [] => []
  | c :: cs => n / product cs :: digits cs (n mod product cs)
  end.

Fixpoint cell_number (counts indices : list Z) : Z :=
  match counts, indices with
  | c :: cs, k :: ks => k * product cs + cell_number cs ks
  | _, _ => 0
  end.

(** An index vector that addresses a cell: one index per dimension, each
    below its dimension's count. *)
Definition valid_indices (counts indices : list Z) : Prop :=
  Forall2 (fun c k => 0 <= k < c) counts indices.

(** One step of the odometer as the specification words it: increment the
    last counter; a counter that reaches its count is reset to zero and the
    carry moves to its left neighbour.  The boolean is the carry that leaves
    the leftmost counter. *)
Fixpoint odometer_step (counts indices : list Z) : bool * list Z :=
  match counts, indices with
  | c :: cs, x :: xs =>
      let '(cy, xs') := odometer_step cs xs in
      if cy then
        if x + 1 <? c then (false, x + 1 :: xs') else (true, 0 :: xs')
      else (false, x :: xs')
  | _, _ => (true, [])
  end.

(** The categories a vector of indices selects, one per dimension. *)
Definition categories_at (dims : list Dimension) (indices : list Z)
    : list Category :=
  zip_with (fun d k => default zeroCategory (dim_Categories d !! Z.to_nat k))
    dims indices.

(** The dimension invariant [count == length(categories)] with at least one
    category. *)
Definition populated (d : Dimension) : Prop :=
  0 < dim_Count d /\ dim_Count d = Z.of_nat (length (dim_Categories d)).

(** The row the callback sees for cell number [i] of the value list: the
    odometer has wrapped [i / product] times. *)
Definition indices_at (t : Table) (i : nat) : list Z :=
  let counts := dim_Count <$> tbl_Dimensions t in
  digits counts (Z.of_nat i mod product counts).

Definition row_at (t : Table) (i : nat) : Row :=
  mkRow (categories_at (tbl_Dimensions t) (indices_at t i))
        (default 0 (tbl_Values t !! i)).

(** ** JSON documents *)

(** The response body, as the document it spells.  Object members keep their
    order and may repeat; numbers are the integers the API sends. *)
#[local] Set Warnings "-register-all".
Inductive json : Type :=
| JNull
| JBool (b : bool)
| JNumber (n : Z)
| JString (s : string)
| JArray (elems : list json)
| JObject (members : list (string * json)).
#[local] Set Warnings "register-all".

(** ** [encoding/json] decoding into the Go types of the program *)

(** Field names are matched under Unicode simple case folding; unknown
    members are ignored; [null] leaves the target as it is; a value of the
    wrong kind is an error ([None]).  Strings hold UTF-8.  The fields of
    the program have ASCII names, and the only characters outside ASCII
    that fold to an ASCII letter are U+017F (long s, bytes C5 BF), which
    folds with [s], and U+212A (Kelvin sign, bytes E2 84 AA), which folds
    with [k]; no other character can make a key match a field.  An array is
    decoded into a fresh slice: a member name that occurs twice in one
    object, whose second array would be decoded over the elements of the
    first, is outside this model. *)
Definition lower (c : ascii) : ascii :=
  let n := nat_of_ascii c in
  if (65 <=? n)%nat && (n <=? 90)%nat then ascii_of_nat (n + 32) else c.

Definition is_byte (c : ascii) (n : nat) : bool := (nat_of_ascii c =? n)%nat.

Fixpoint fold_case (s : string) : string :=
  match s with
  | EmptyString => EmptyString
  | String c s' =>
      match s' with
      | String c2 s2 =>
          if is_byte c 197 && is_byte c2 191
          then String "s" (fold_case s2)
          else
            match s2 with
            | String c3 s3 =>
                if is_byte c 226 && is_byte c2 132 && is_byte c3 170
                then String "k" (fold_case s3)
                else String (lower c) (fold_case s')
            | EmptyString => String (lower c) (fold_case s')
            end
      | EmptyString => String (lower c) EmptyString
      end
  end.

Definition into_string (v : json) (cur : string) : option string :=
  match v with
  | JString s => Some s
  | JNull => Some cur
  | _ => None
  end.

Definition into_int (v : json) (cur : Z) : option Z :=
  match v with
  | JNumber n =>
      if (- 2 ^ 63 <=? n) && (n <? 2 ^ 63) then Some n else None
  | JNull => Some cur
  | _ => None
  end.

Fixpoint into_struct {T} (field : string -> json -> T -> option T)
    (members : list (string * json)) (cur : T) : option T :=
  match members with
  | [] => Some cur
  | (k, v) :: rest =>
      match field (fold_case k) v cur with
      | Some cur' => into_struct field rest cur'
      | None => None
      end
  end.

Fixpoint into_elems {T} (elem : json -> option T) (elems : list json)
    : option (list T) :=
  match elems with
  | [] => Some []
  | e :: rest =>
      match elem e, into_elems elem rest with
      | Some x, Some xs => Some (x :: xs)
      | _, _ => None
      end
  end.

Definition Category_field (k : string) (v : json) (c : Category)
    : option Category :=
  if String.eqb k "code" then
    s ← into_string v (cat_Code c); Some (mkCategory s (cat_Label c))
  else if String.eqb k "label" then
    s ← into_string v (cat_Label c); Some (mkCategory (cat_Code c) s)
  else Some c.

Definition into_Category (v : json) (cur : Category) : option Category :=
  match v with
  | JObject ms => into_struct Category_field ms cur
  | JNull => Some cur
  | _ => None
  end.

Definition Variable_field (k : string) (v : json) (x : Variable_)
    : option Variable_ :=
  if String.eqb k "name" then
    s ← into_string v (var_Name x); Some (mkVariable s (var_Label x))
  else if String.eqb k "label" then
    s ← into_string v (var_Label x); Some (mkVariable (var_Name x) s)
  else Some x.

Definition into_Variable (v : json) (cur : Variable_) : option Variable_ :=
  match v with
  | JObject ms => into_struct Variable_field ms cur
  | JNull => Some cur
  | _ => None
  end.

Definition into_Categories (v : json) (cur : list Category)
    : option (list Category) :=
  match v with
  | JArray es => into_elems (fun e => into_Category e zeroCategory) es
  | JNull => Some []
  | _ => None
  end.

Definition Dimension_field (k : string) (v : json) (d : Dimension)
    : option Dimension :=
  if String.eqb k "count" then
    n ← into_int v (dim_Count d);
    Some (mkDimension n (dim_Categories d) (dim_Variable d))
  else if String.eqb k "categories" then
    cs ← into_Categories v (dim_Categories d);
    Some (mkDimension (dim_Count d) cs (dim_Variable d))
  else if String.eqb k "variable" then
    x ← into_Variable v (dim_Variable d);
    Some (mkDimension (dim_Count d) (dim_Categories d) x)
  else Some d.

Definition zeroDimension : Dimension := mkDimension 0 [] (mkVariable "" "").

Definition into_Dimension (v : json) : option Dimension :=
  match v with
  | JObject ms => into_struct Dimension_field ms zeroDimension
  | JNull => Some zeroDimension
  | _ => None
  end.

(** [dec.Decode(&dims)] for [var dims table.Dimensions].  The type
    [table.Dimensions] is not among the sources; following the data model of
    the specification it is a slice of dimensions.  The inner option is the
    slice, [None] being [nil]. *)
Definition decode_Dimensions (v : json) : option (option (list Dimension)) :=
  match v with
  | JArray es => ds ← into_elems into_Dimension es; Some (Some ds)
  | JNull => Some None
  | _ => None
  end.

Definition GraphqlError_field (k : string) (v : json) (e : GraphqlError)
    : option GraphqlError :=
  if String.eqb k "message" then
    s ← into_string v (err_Message e); Some (mkGraphqlError s)
  else Some e.

Definition into_GraphqlError (v : json) : option GraphqlError :=
  match v with
  | JObject ms => into_struct GraphqlError_field ms (mkGraphqlError "")
  | JNull => Some (mkGraphqlError "")
  | _ => None
  end.

(** [dec.Decode(&graphqlErrs)] for [var graphqlErrs []struct{ Message string }]. *)
Definition decode_graphqlErrs (v : json) : option (list GraphqlError) :=
  match v with
  | JArray es => into_elems into_GraphqlError es
  | JNull => Some []
  | _ => None
  end.

(** ** The decoder cursor *)

(** Modelled from the spec: package [jsonstream] (the [Decoder] that
    cantabular-query-streamed imports) is not among the sources; the cursor
    below follows the Decoder Cursor contract of the specification.  It
    stands inside a stack of opened composites.  In an object, [DecodeName]
    moves to the next member and makes its value the pending one; a value
    that was never taken is skipped by the next [DecodeName] or by
    [EndComposite]. *)
Inductive frame : Type :=
| InObject (pending : option json) (rest : list (string * json))
| InArray (rest : list json).

(** Modelled from the spec: [jsonstream.Decoder], a cursor over one
    forward-only document: the document while it has not been entered, and
    the composites entered and not yet left, innermost first. *)
Record Decoder : Type := mkDecoder {
  dec_input : option json;       (* the document, until it is entered *)
  dec_stack : list frame }.

(** The state of the streaming program: the cursor [dec] and what has been
    written to [w].  The CSV writer of [decodeValues] is flushed by a
    deferred call, so every record handed to it reaches [w], also when a
    panic unwinds. *)
Record State : Type := mkState { st_dec : Decoder; st_w : Sink }.

(** Modelled from the spec: [jsonstream.New], a cursor before the document
    that the reader holds. *)
Definition New (r : json) : Decoder := mkDecoder (Some r) [].

Definition set_stack (stack : list frame) (st : State) : State :=
  mkState (mkDecoder (dec_input (st_dec st)) stack) (st_w st).

(** Modelled from the spec: the value the cursor stands before, if any (the
    one pending token of the Decoder Cursor). *)
Definition peek (st : State) : option json :=
  match dec_stack (st_dec st) with
  | [] => dec_input (st_dec st)
  | InObject pending _ :: _ => pending
  | InArray (v :: _) :: _ => Some v
  | InArray [] :: _ => None
  end.

(** Modelled from the spec: the state after that value has been consumed;
    the cursor only moves forward. *)
Definition consume (st : State) : State :=
  match dec_stack (st_dec st) with
  | [] => mkState (mkDecoder None []) (st_w st)
  | InObject _ rest :: stk => set_stack (InObject None rest :: stk) st
  | InArray (_ :: rest) :: stk => set_stack (InArray rest :: stk) st
  | InArray [] :: _ => st
  end.

(** Modelled from the spec: taking the next value; with none pending the
    cursor fails with a structural error. *)
Definition nextValue : M State json :=
  fun st => match peek st with
            | Some v => (consume st, Ok v)
            | None => (st, Panicked StructuralError)
            end.

(** Modelled from the spec: entering a composite. *)
Definition push (f : frame) : M State unit :=
  fun st => (set_stack (f :: dec_stack (st_dec st)) st, Ok tt).

(** Modelled from the spec: [enterComposite] for
    [jsonstream.StartObjectComposite]: opens the object; on [null] answers
    [false] and leaves the [null] where it is; anything else, an array
    included, is a structural error. *)
Definition StartObjectComposite : M State bool :=
  fun st => match peek st with
            | Some (JObject ms) => (_ <- nextValue ;; push (InObject None ms) ;;; ret true) st
            | Some JNull => (st, Ok false)
            | _ => (st, Panicked StructuralError)
            end.

(** Modelled from the spec: [enterComposite] for
    [jsonstream.StartArrayComposite], in the same way. *)
Definition StartArrayComposite : M State bool :=
  fun st => match peek st with
            | Some (JArray es) => (_ <- nextValue ;; push (InArray es) ;;; ret true) st
            | Some JNull => (st, Ok false)
            | _ => (st, Panicked StructuralError)
            end.

(** Modelled from the spec: [exitComposite] for [jsonstream.EndComposite]:
    members or elements not yet consumed are skipped. *)
Definition EndComposite : M State unit :=
  fun st => match dec_stack (st_dec st) with
            | _ :: stk => (set_stack stk st, Ok tt)
            | [] => (st, Panicked StructuralError)
            end.

(** Modelled from the spec: the number of members or elements of the
    current composite not yet reached. *)
Definition remaining (st : State) : nat :=
  match dec_stack (st_dec st) with
  | InObject _ rest :: _ => length rest
  | InArray rest :: _ => length rest
  | [] => 0
  end.

(** Modelled from the spec: [hasMore] for [jsonstream.More]. *)
Definition More : M State bool :=
  fun st => (st, Ok (0 <? remaining st)%nat).

(** Modelled from the spec: [decodeName] for [jsonstream.DecodeName]: only
    inside an object with a member left; the value of the member before,
    when it was never taken, is skipped. *)
Definition DecodeName : M State string :=
  fun st => match dec_stack (st_dec st) with
            | InObject _ ((name, v) :: rest) :: stk =>
                (set_stack (InObject (Some v) rest :: stk) st, Ok name)
            | _ => (st, Panicked StructuralError)
            end.

(** Modelled from the spec: [decodeScalar] for [jsonstream.DecodeString],
    which answers a [*string], [nil] for [null]. *)
Definition DecodeString : M State (option string) :=
  v <- nextValue ;;
  match v with
  | JString s => ret (Some s)
  | JNull => ret None
  | _ => raise StructuralError
  end.

(** Modelled from the spec: [decodeScalar] for [jsonstream.DecodeNumber];
    the number is one of the integers the API sends. *)
Definition DecodeNumber : M State Z :=
  v <- nextValue ;;
  match v with
  | JNumber n => ret n
  | _ => raise StructuralError
  end.

(** Modelled from the spec: [decodeInto(shape)] for [jsonstream.Decode]:
    the next value is decoded as a whole; [None] is a non-nil [err]. *)
Definition Decode {A} (shape : json -> option A) : M State (option A) :=
  v <- nextValue ;; ret (shape v).

(** [for dec.More() { body }], the loop carrying the local variables [l].
    One member or element is reached per iteration, so the number of those
    remaining on entry bounds the iterations. *)
Fixpoint forMore_fuel {L} (fuel : nat) (body : L -> M State L) (l : L)
    : M State L :=
  more <- More ;;
  if (more : bool) then
    match fuel with
    | O => raise OutOfFuel
    | S fuel' => l' <- body l ;; forMore_fuel fuel' body l'
    end
  else ret l.

Definition forMore {L} (body : L -> M State L) (l : L) : M State L :=
  fun st => forMore_fuel (remaining st) body l st.

(** ** The row iterator of package [table] *)

(** Modelled from the spec: package [table] ([Dimensions], [NewIterator],
    [CategoryAtColumn], [Next]) is not among the sources; the iterator below
    follows the Row Iterator of the specification: one counter per
    dimension, initialised to zero, advanced by the odometer rule. *)
Record Iterator : Type := mkIterator {
  it_dims : list Dimension;
  it_indices : list Z }.

(** Modelled from the spec: [table.Dimensions.NewIterator], all counters
    zero. *)
Definition NewIterator (dims : list Dimension) : Iterator :=
  mkIterator dims (replicate (length dims) 0).

(** Modelled from the spec: [CategoryAtColumn], the category of the
    current cell in dimension [i]; an index outside a slice is a Go runtime
    panic. *)
Definition CategoryAtColumn (ti : Iterator) (i : nat) : result Category :=
  d <~ at_ (it_dims ti) i ;;
  k <~ at_ (it_indices ti) i ;;
  index (dim_Categories d) k.

(** Modelled from the spec: [Next], one step of the odometer. *)
Definition Next (ti : Iterator) : Iterator :=
  mkIterator (it_dims ti)
    (snd (odometer_step (dim_Count <$> it_dims ti) (it_indices ti))).

(** ** cantabular-query-streamed *)

Definition dquote : string := String (ascii_of_nat 34) EmptyString.
Definition newline : string := String (ascii_of_nat 10) EmptyString.

Definition write (record : list string) : M State unit :=
  modify (fun st => mkState (st_dec st) (Write record (st_w st))).

(** [for i := range dims { columns = append(columns, ti.CategoryAtColumn(i).Label) }] *)
Fixpoint labels_range (ti : Iterator) (rng : list nat) : result (list string) :=
  match rng with
  | [] => Ok []
  | i :: rng' =>
      c <~ CategoryAtColumn ti i ;;
      rest <~ labels_range ti rng' ;;
      Ok (cat_Label c :: rest)
  end.

(** One iteration of the row loop of [decodeValues]. *)
Definition decodeValues_row (dims : list Dimension) (ti : Iterator)
    : M State Iterator :=
  columns <- lift (labels_range ti (seq 0 (length dims))) ;;
  n <- DecodeNumber ;;
  write (columns ++ [Itoa n]) ;;;
  ret (Next ti).

Definition decodeValues (dims : list Dimension) : M State unit :=
  let columns := (fun d => var_Label (dim_Variable d)) <$> dims in
  write (columns ++ ["count"]) ;;;
  forMore (decodeValues_row dims) (NewIterator dims) ;;;
  ret tt.

(** One iteration of the member loop of [decodeTableFields]; [dims] is the
    local variable of that name, [None] while it is [nil]. *)
Definition decodeTableFields_field (dims : option (list Dimension))
    : M State (option (list Dimension)) :=
  field <- DecodeName ;;
  if String.eqb field "dimensions" then
    r <- Decode decode_Dimensions ;;
    match r with
    | Some dims' => ret dims'
    | None => raise PanicDecodeError
    end
  else if String.eqb field "error" then
    errMsg <- DecodeString ;;
    match errMsg with
    | Some msg => raise (PanicString ("Table blocked: " +:+ msg))
    | None => ret dims
    end
  else if String.eqb field "values" then
    match dims with
    | None => raise (PanicString "values received before dimensions")
    | Some ds =>
        ok <- StartArrayComposite ;;
        (if (ok : bool) then decodeValues ds ;;; EndComposite else ret tt) ;;;
        ret dims
    end
  else ret dims.

Definition decodeTableFields : M State unit :=
  forMore decodeTableFields_field None ;;;
  ret tt.

Definition mustMatchName (name : string) : M State unit :=
  gotName <- DecodeName ;;
  if String.eqb gotName name then ret tt
  else raise (PanicExpected name gotName).

Definition decodeDataFields : M State unit :=
  mustMatchName "dataset" ;;;
  ok <- StartObjectComposite ;;
  if negb ok then
    raise (PanicString
             ("dataset object expected but " +:+ dquote +:+ "null"
              +:+ dquote +:+ " found"))
  else
    mustMatchName "table" ;;;
    ok <- StartObjectComposite ;;
    (if (ok : bool) then decodeTableFields ;;; EndComposite else ret tt) ;;;
    EndComposite.

(** The string builder of [decodeErrorsPanicIfAny]: a newline goes before a
    message only when something has been written already. *)
Definition joinMessages (graphqlErrs : list GraphqlError) : string :=
  fold_left (fun sb err =>
               (if (0 <? String.length sb)%nat then sb +:+ newline else sb)
               +:+ err_Message err)
    graphqlErrs "".

Definition decodeErrorsPanicIfAny : M State unit :=
  r <- Decode decode_graphqlErrs ;;
  match r with
  | None => raise PanicDecodeError
  | Some graphqlErrs =>
      let sb := joinMessages graphqlErrs in
      if (0 <? String.length sb)%nat then raise (PanicString sb) else ret tt
  end.

(** One iteration of the member loop of [graphqlJSONToCSV]. *)
Definition graphqlJSONToCSV_field (_ : unit) : M State unit :=
  field <- DecodeName ;;
  if String.eqb field "data" then
    ok <- StartObjectComposite ;;
    if (ok : bool) then decodeDataFields ;;; EndComposite else ret tt
  else if String.eqb field "errors" then decodeErrorsPanicIfAny
  else ret tt.

Definition graphqlJSONToCSV : M State unit :=
  ok <- StartObjectComposite ;;
  if negb ok then raise (PanicString "No JSON object found in response")
  else
    forMore graphqlJSONToCSV_field tt ;;;
    EndComposite.

(** [graphqlJSONToCSV(r, w)] on a response body [r] and an empty [w]. *)
Definition run (r : json) : State * result unit :=
  graphqlJSONToCSV (mkState (New r) []).

(** States whose cursor stands inside an object or an array. *)
Definition inObject (input : option json) (pending : option json)
    (rest : list (string * json)) (stk : list frame) (w : Sink) : State :=
  mkState (mkDecoder input (InObject pending rest :: stk)) w.

Definition inArray (input : option json) (rest : list json)
    (stk : list frame) (w : Sink) : State :=
  mkState (mkDecoder input (InArray rest :: stk)) w.

(** The CSV records of the cells number [i], [i + 1], ... holding [values]:
    the labels of the cell's categories, then the count. *)
Definition labels_at (dims : list Dimension) (i : nat) : list string :=
  let counts := dim_Count <$> dims in
  cat_Label <$> categories_at dims (digits counts (Z.of_nat i mod product counts)).

Fixpoint csv_rows (dims : list Dimension) (i : nat) (values : list Z)
    : list (list string) :=
  match values with
  | [] => []
  | v :: values' => (labels_at dims i ++ [Itoa v]) :: csv_rows dims (S i) values'
  end.

Definition csv_header (dims : list Dimension) : list string :=
  ((fun d => var_Label (dim_Variable d)) <$> dims) ++ ["count"].

(** ** Concrete tables and documents used by the examples *)

(** The table of the round-trip example: counts [2,3]. *)
Definition dimA : Dimension :=
  mkDimension 2 [mkCategory "a0" "a0"; mkCategory "a1" "a1"]
    (mkVariable "A" "A").
Definition dimB : Dimension :=
  mkDimension 3 [mkCategory "b0" "b0"; mkCategory "b1" "b1";
                 mkCategory "b2" "b2"]
    (mkVariable "B" "B").
Definition table23 (values : list Z) : Table := mkTable [dimA; dimB] values "".

Definition jCategory (s : string) : json :=
  JObject [("code", JString s); ("label", JString s)].
Definition jDimension (label : string) (cats : list string) : json :=
  JObject [("count", JNumber (Z.of_nat (length cats)));
           ("variable", JObject [("name", JString label);
                                 ("label", JString label)]);
           ("categories", JArray (jCategory <$> cats))].
Definition jDimensions23 : json :=
  JArray [jDimension "A" ["a0"; "a1"]; jDimension "B" ["b0"; "b1"; "b2"]].
Definition jValues (values : list Z) : json := JArray (JNumber <$> values).
Definition jData (tableMembers : list (string * json)) : json :=
  JObject [("dataset", JObject [("table", JObject tableMembers)])].
Definition jErrors (messages : list string) : json :=
  JArray ((fun m => JObject [("message", JString m)]) <$> messages).

(** A response whose [data.dataset.table] object has the given members,
    with whatever members follow [table], [dataset] and [data] in their
    objects; and the state in which [decodeTableFields] starts on it. *)
Definition jEnvelope (tableMembers afterTable afterDataset afterData
                        : list (string * json)) : json :=
  JObject
    (("data",
      JObject
        (("dataset", JObject (("table", JObject tableMembers) :: afterTable))
           :: afterDataset))
       :: afterData).

Definition jResponse (tableMembers : list (string * json)) : json :=
  jEnvelope tableMembers [] [] [].

Definition inTable (tableMembers afterTable afterDataset afterData
                      : list (string * json)) (w : Sink) : State :=
  inObject None None tableMembers
    [InObject None afterTable; InObject None afterDataset;
     InObject None afterData] w.

(** The state in which a run that consumed the whole document ends. *)
Definition finished (w : Sink) : State := mkState (mkDecoder None []) w.

(** A table whose second dimension announces fewer categories than it
    lists, and whose third announces none. *)
Definition tableShort (values : list Z) : Table :=
  mkTable
    [dimA;
     mkDimension 2 [mkCategory "b0" "b0"; mkCategory "b1" "b1";
                    mkCategory "b2" "b2"] (mkVariable "B" "B");
     mkDimension 0 [mkCategory "c0" "c0"] (mkVariable "C" "C")]
    values "".

(** A table with a value to iterate over and a dimension that has lost its
    categories. *)
Definition tableEmptied : Table :=
  mkTable [dimA; mkDimension 0 [] (mkVariable "E" "E")] [7] "".

(** ** Radices as [ForEachRow] uses them *)

(** [ForEachRow] compares the incremented index with [dim.Count] and never
    looks at [len(dim.Categories)]: the count is the radix of its dimension,
    and a count below one lets every increment carry, as a radix of one. *)
Definition radix (d : Dimension) : Z := Z.max 1 (dim_Count d).

Definition radixes (t : Table) : list Z := radix <$> tbl_Dimensions t.

Definition indices_by_radix (t : Table) (i : nat) : list Z :=
  digits (radixes t) (Z.of_nat i mod product (radixes t)).

Definition row_by_radix (t : Table) (i : nat) : Row :=
  mkRow (categories_at (tbl_Dimensions t) (indices_by_radix t i))
        (default 0 (tbl_Values t !! i)).

(** A dimension that holds a category for every index below its radix. *)
Definition enough_categories (d : Dimension) : Prop :=
  radix d <= Z.of_nat (length (dim_Categories d)).

(** ** Members of the table object that neither fail nor write *)

(** A member that [decodeTableFields] passes over when it is met: a name it
    does not know, or [error] with the value [null]. *)
Definition passed_over (m : string * json) : Prop :=
  fst m <> "dimensions" /\ fst m <> "values"
  /\ (fst m = "error" -> snd m = JNull).

(** No cell values and no failure: no [values] member, [error] only as
    [null], [dimensions] only well-formed. *)
Definition without_values (m : string * json) : Prop :=
  fst m <> "values"
  /\ (fst m = "error" -> snd m = JNull)
  /\ (fst m = "dimensions" -> is_Some (decode_Dimensions (snd m))).

(** ** cantabular-query-simple: decoding the response *)

(** A Go [int], of 64 bits. *)
Definition is_int (n : Z) : Prop := - 2 ^ 63 <= n < 2 ^ 63.

(** [Values []int]. *)
Definition into_ints (v : json) : option (list Z) :=
  match v with
  | JArray es => into_elems (fun e => into_int e 0) es
  | JNull => Some []
  | _ => None
  end.

(** [Dimensions []struct{ Count int; Categories []Category; Variable Variable }]. *)
Definition into_Dimensions (v : json) : option (list Dimension) :=
  match v with
  | JArray es => into_elems into_Dimension es
  | JNull => Some []
  | _ => None
  end.

Definition Table_field (k : string) (v : json) (t : Table) : option Table :=
  if String.eqb k "dimensions" then
    ds ← into_Dimensions v; Some (mkTable ds (tbl_Values t) (tbl_Error t))
  else if String.eqb k "values" then
    vs ← into_ints v; Some (mkTable (tbl_Dimensions t) vs (tbl_Error t))
  else if String.eqb k "error" then
    e ← into_string v (tbl_Error t);
    Some (mkTable (tbl_Dimensions t) (tbl_Values t) e)
  else Some t.

Definition into_Table (v : json) (cur : Table) : option Table :=
  match v with
  | JObject ms => into_struct Table_field ms cur
  | JNull => Some cur
  | _ => None
  end.

(** [Dataset struct{ Table Table }] and [Data struct{ Dataset ... }], each
    held as the table inside it. *)
Definition Dataset_field (k : string) (v : json) (t : Table) : option Table :=
  if String.eqb k "table" then into_Table v t else Some t.

Definition into_Dataset (v : json) (cur : Table) : option Table :=
  match v with
  | JObject ms => into_struct Dataset_field ms cur
  | JNull => Some cur
  | _ => None
  end.

Definition Data_field (k : string) (v : json) (t : Table) : option Table :=
  if String.eqb k "dataset" then into_Dataset v t else Some t.

Definition into_Data (v : json) (cur : Table) : option Table :=
  match v with
  | JObject ms => into_struct Data_field ms cur
  | JNull => Some cur
  | _ => None
  end.

Definition Response_field (k : string) (v : json) (r : Response)
    : option Response :=
  if String.eqb k "data" then
    t ← into_Data v (resp_Table r); Some (mkResponse t (resp_Errors r))
  else if String.eqb k "errors" then
    es ← decode_graphqlErrs v; Some (mkResponse (resp_Table r) es)
  else Some r.

Definition zeroResponse : Response := mkResponse (mkTable [] [] "") [].

(** [json.NewDecoder(resp.Body).Decode(&gqlResp)] for [var gqlResp Response]. *)
Definition decode_Response (body : json) : option Response :=
  match body with
  | JObject ms => into_struct Response_field ms zeroResponse
  | JNull => Some zeroResponse
  | _ => None
  end.

(** [main] from "Decode the response" on: [log.Fatal(err)] exits before
    anything is written. *)
Definition main_decode (body : json) : M Sink unit :=
  match decode_Response body with
  | None => raise FatalDecodeError
  | Some gqlResp => main_simple gqlResp
  end.

(** ** The table object as the server spells it *)

(** The members of a dimension in the order of the selection of
    [graphQLQuery]: [count], [variable { name label }],
    [categories { code label }]. *)
Definition jsonCategory (c : Category) : json :=
  JObject [("code", JString (cat_Code c)); ("label", JString (cat_Label c))].

Definition jsonVariable (x : Variable_) : json :=
  JObject [("name", JString (var_Name x)); ("label", JString (var_Label x))].

Definition jsonDimension (d : Dimension) : json :=
  JObject [("count", JNumber (dim_Count d));
           ("variable", jsonVariable (dim_Variable d));
           ("categories", JArray (jsonCategory <$> dim_Categories d))].

Definition jsonDimensions (dims : list Dimension) : json :=
  JArray (jsonDimension <$> dims).

(** A member of the table object that no field of [Table] takes a value
    from, and that [decodeTableFields] passes over: a name that does not
    fold to [dimensions] or [values], with the value [null] if it folds to
    [error]. *)
Definition unrelated (m : string * json) : Prop :=
  fold_case (fst m) <> "dimensions" /\ fold_case (fst m) <> "values"
  /\ (fold_case (fst m) = "error" -> snd m = JNull).

(** ** The JavaScript example: [processCounts] and [populateRow] *)

(** The example restructures the same response in JavaScript.  A table is
    the object the response holds at [data.dataset.table]; it has the shape
    of [Table], whose [tbl_Error] the script neither requests nor reads.
    Numbers are taken to be the integers the API sends.  A row is an object
    used as a map from column name to value; the order of its keys, which
    only [console.log] shows, is not modelled. *)
Module JS.

Inductive value : Type :=
| String_ (s : string)
| Number (n : Z)
| Undefined.

(** A call returns, or throws the [TypeError] of reading a property of
    [undefined], the only exception these functions can raise. *)
Inductive outcome (A : Type) : Type :=
| Returns (a : A)
| ThrowsTypeError.
Arguments Returns {A} a.
Arguments ThrowsTypeError {A}.

(** [obj[key] = v] on an object created by [{}], for a string or number
    [v].  The map holds the own properties of the object.  The key
    [__proto__] names the accessor inherited from [Object.prototype], whose
    setter ignores a value that is neither an object nor [null]; every other
    key becomes, or updates, an own property. *)
Definition assign (obj : gmap string value) (key : string) (v : value)
    : gmap string value :=
  if String.eqb key "__proto__" then obj else <[key := v]> obj.

(** [indices.forEach((index, i) => { ... })] of [populateRow]: an element
    outside an array reads as [undefined], and the property read that
    follows throws. *)
Fixpoint populateRow_forEach (table : Table) (obj : gmap string value)
    (i : nat) (indices : list Z) : outcome (gmap string value) :=
  match indices with
  | [] => Returns obj
  | index :: rest =>
      match tbl_Dimensions table !! i with
      | None => ThrowsTypeError
      | Some dim =>
          match (if index <? 0 then None
                 else dim_Categories dim !! Z.to_nat index) with
          | None => ThrowsTypeError
          | Some cat =>
              populateRow_forEach table
                (assign obj (var_Label (dim_Variable dim))
                   (String_ (cat_Label cat)))
                (S i) rest
          end
      end
  end.

Definition populateRow (table : Table) (indices : list Z) (n : nat)
    : outcome (gmap string value) :=
  match populateRow_forEach table ∅ 0 indices with
  | ThrowsTypeError => ThrowsTypeError
  | Returns obj =>
      Returns (assign obj "count" match tbl_Values table !! n with
                                  | Some v => Number v
                                  | None => Undefined
                                  end)
  end.

(** [let j = dimIndices.length - 1; while (j >= 0) { ... }], with
    [n = j + 1].  [j] stays below [dimIndices.length], so the first read is
    never outside the array; a length that is [undefined] compares false. *)
Fixpoint carry_while (dimLengths dimIndices : list Z) (n : nat) : list Z :=
  match n with
  | O => dimIndices
  | S j =>
      match dimIndices !! j with
      | None => dimIndices
      | Some x =>
          let dimIndices := <[j := x + 1]> dimIndices in
          if match dimLengths !! j with
             | Some c => x + 1 <? c
             | None => false
             end
          then dimIndices
          else carry_while dimLengths (<[j := 0]> dimIndices) j
      end
  end.

(** [for (let i = 0; i < table.values.length; i++) { ... }]. *)
Fixpoint processCounts_for (table : Table) (dimLengths : list Z)
    (rng : list nat) (dimIndices : list Z) (result : list (gmap string value))
    : outcome (list (gmap string value)) :=
  match rng with
  | [] => Returns result
  | i :: rng' =>
      match populateRow table dimIndices i with
      | ThrowsTypeError => ThrowsTypeError
      | Returns row =>
          processCounts_for table dimLengths rng'
            (carry_while dimLengths dimIndices (length dimIndices))
            (result ++ [row])
      end
  end.

Definition processCounts (table : Table) : outcome (list (gmap string value)) :=
  let dimLengths := dim_Count <$> tbl_Dimensions table in
  let dimIndices := (fun _ => 0) <$> tbl_Dimensions table in
  processCounts_for table dimLengths (seq 0 (length (tbl_Values table)))
    dimIndices [].

End JS.

(** The columns of a cell as [JS.populateRow] assigns them, in order: one
    per dimension, named by the label of its variable. *)
Definition js_columns (dims : list Dimension) (cats : list Category)
    : list (string * JS.value) :=
  zip_with (fun d c => (var_Label (dim_Variable d), JS.String_ (cat_Label c)))
    dims cats.

(** Consecutive assignments [obj[k] = v]. *)
Definition js_assign (obj : gmap string JS.value)
    (columns : list (string * JS.value)) : gmap string JS.value :=
  fold_left (fun o kv => <[fst kv := snd kv]> o) columns obj.

(** A dimension whose column name an assignment turns into an own
    property. *)
Definition plain_label (d : Dimension) : Prop :=
  var_Label (dim_Variable d) <> "__proto__".

(** The object [JS.populateRow] builds from the categories and the count
    of a row of [ForEachRow]. *)
Definition js_row (t : Table) (row : Row) : gmap string JS.value :=
  <["count" := JS.Number (row_Count row)]>
    (js_assign ∅ (js_columns (tbl_Dimensions t) (row_Categories row))).
Section MixedRadix.

Lemma product_pos counts : Forall (fun c => 0 < c) counts -> 0 < product counts.
Proof.
  induction 1 as [|c cs Hc _ IH]; simpl; [lia|].
  apply Z.mul_pos_pos; assumption.
Qed.

Lemma divmod_block q b r :
  0 <= r < b -> (q * b + r) / b = q /\ (q * b + r) mod b = r.
Proof.
  intros Hr. split.
  - rewrite Z.div_add_l by lia. rewrite Z.div_small by lia. lia.
  - rewrite Z.add_comm, Z.mod_add by lia. apply Z.mod_small; lia.
Qed.

Lemma digits_length counts n : length (digits counts n) = length counts.
Proof. revert n; induction counts; intros; simpl; auto. Qed.

Lemma digits_zero counts : digits counts 0 = replicate (length counts) 0.
Proof.
  induction counts as [|c cs IH]; simpl; [reflexivity|].
  rewrite Zdiv_0_l, Zmod_0_l, IH. reflexivity.
Qed.

Lemma digits_valid counts n :
  Forall (fun c => 0 < c) counts -> 0 <= n < product counts ->
  valid_indices counts (digits counts n).
Proof.
  intros Hpos; revert n.
  induction Hpos as [|c cs Hc Hcs IH]; intros n Hn; simpl in *.
  - constructor.
  - pose proof (product_pos _ Hcs) as HP.
    constructor.
    + split; [apply Z.div_pos; lia|].
      apply Z.div_lt_upper_bound; lia.
    + apply IH. apply Z.mod_pos_bound; lia.
Qed.

Lemma cell_number_digits counts n :
  Forall (fun c => 0 < c) counts -> 0 <= n < product counts ->
  cell_number counts (digits counts n) = n.
Proof.
  intros Hpos; revert n.
  induction Hpos as [|c cs Hc Hcs IH]; intros n Hn; simpl in *; [lia|].
  pose proof (product_pos _ Hcs) as HP.
  rewrite IH by (apply Z.mod_pos_bound; lia).
  pose proof (Z.div_mod n (product cs)). lia.
Qed.

Lemma cell_number_bound counts indices :
  valid_indices counts indices ->
  0 <= cell_number counts indices < product counts.
Proof.
  induction 1 as [|c k cs ks Hk _ IH]; simpl; [lia|]. nia.
Qed.

Lemma digits_cell_number counts indices :
  valid_indices counts indices ->
  digits counts (cell_number counts indices) = indices.
Proof.
  induction 1 as [|c k cs ks Hk Hv IH]; simpl; [reflexivity|].
  pose proof (cell_number_bound _ _ Hv) as Hb.
  destruct (divmod_block k (product cs) (cell_number cs ks) Hb) as [-> ->].
  rewrite IH. reflexivity.
Qed.

(** The odometer step moves from cell [n] to cell [n + 1], wrapping to
    cell [0] after the last one. *)
Lemma odometer_step_digits counts n :
  Forall (fun c => 0 < c) counts -> 0 <= n < product counts ->
  odometer_step counts (digits counts n)
  = (n + 1 =? product counts, digits counts ((n + 1) mod product counts)).
Proof.
  intros Hpos; revert n.
  induction Hpos as [|c cs Hc Hcs IH]; intros n Hn; simpl in *.
  - assert (n = 0) as -> by lia. reflexivity.
  - pose proof (product_pos _ Hcs) as HP.
    set (P' := product cs) in *.
    pose proof (Z.div_mod n P' ltac:(lia)) as Hdm.
    pose proof (Z.mod_pos_bound n P' HP) as Hr.
    assert (0 <= n / P' < c) as Hq
      by (split; [apply Z.div_pos; lia | apply Z.div_lt_upper_bound; lia]).
    set (q := n / P') in *. set (r := n mod P') in *.
    rewrite (IH r Hr).
    destruct (Z.eqb_spec (r + 1) P') as [Hcarry|Hnc].
    + rewrite Hcarry, Z_mod_same_full.
      destruct (Z.ltb_spec (q + 1) c) as [Hlt|Hge].
      * assert (n + 1 = (q + 1) * P' + 0) as Hn1 by lia.
        assert ((n + 1) mod (c * P') = n + 1) as -> by (apply Z.mod_small; nia).
        destruct (Z.eqb_spec (n + 1) (c * P')) as [E|_]; [nia|].
        rewrite Hn1.
        destruct (divmod_block (q + 1) P' 0 ltac:(lia)) as [-> ->].
        reflexivity.
      * assert (n + 1 = c * P') as Hn1 by nia.
        rewrite Hn1, Z.eqb_refl, Z_mod_same_full.
        rewrite Zdiv_0_l, Zmod_0_l. reflexivity.
    + assert (n + 1 = q * P' + (r + 1)) as Hn1 by lia.
      assert ((n + 1) mod (c * P') = n + 1) as -> by (apply Z.mod_small; nia).
      destruct (Z.eqb_spec (n + 1) (c * P')) as [E|_]; [nia|].
      rewrite (Z.mod_small (r + 1) P') by lia.
      rewrite Hn1.
      destruct (divmod_block q P' (r + 1) ltac:(lia)) as [-> ->].
      reflexivity.
Qed.

End MixedRadix.

(** ** The carry loop of [ForEachRow] is the odometer step *)

Section Carry.

Lemma odometer_step_snoc cs xs c x :
  length cs = length xs ->
  odometer_step (cs ++ [c]) (xs ++ [x])
  = if x + 1 <? c then (false, xs ++ [x + 1])
    else (fst (odometer_step cs xs), snd (odometer_step cs xs) ++ [0]).
Proof.
  revert xs; induction cs as [|c0 cs IH]; intros [|x0 xs] Hlen;
    simpl in Hlen; try discriminate.
  - simpl. destruct (x + 1 <? c); reflexivity.
  - simpl. rewrite IH by lia.
    destruct (x + 1 <? c); [reflexivity|].
    simpl. destruct (odometer_step cs xs) as [[|] xs'].
    + destruct (x0 + 1 <? c0); reflexivity.
    + reflexivity.
Qed.

Lemma at_middle {A} (l1 l2 : list A) x : at_ (l1 ++ x :: l2) (length l1) = Ok x.
Proof. unfold at_. rewrite list_lookup_middle; reflexivity. Qed.

Lemma insert_middle {A} (l1 l2 : list A) x y :
  <[length l1 := y]> (l1 ++ x :: l2) = l1 ++ y :: l2.
Proof.
  replace (length l1) with (length l1 + 0)%nat at 1 by lia.
  rewrite insert_app_r. reflexivity.
Qed.

(** Positions to the right of the cursor have already been settled. *)
Lemma carry_prefix cs xs csuf xsuf :
  length cs = length xs -> length csuf = length xsuf ->
  carry (cs ++ csuf) (xs ++ xsuf) (length xs)
  = Ok (snd (odometer_step cs xs) ++ xsuf).
Proof.
  revert xs csuf xsuf.
  induction cs as [|c cs IH] using rev_ind; intros xs csuf xsuf Hlen Hsuf.
  - destruct xs; [reflexivity | discriminate].
  - destruct xs as [|x xs _] using rev_ind;
      [rewrite length_app in Hlen; simpl in Hlen; lia|].
    rewrite !length_app in Hlen; simpl in Hlen.
    assert (length cs = length xs) as Hl by lia.
    rewrite length_app, Nat.add_1_r. simpl carry.
    rewrite <- !app_assoc. simpl app.
    assert (at_ (cs ++ c :: csuf) (length xs) = Ok c) as Hc
      by (rewrite <- Hl; apply at_middle).
    rewrite at_middle. simpl rbind.
    rewrite insert_middle, Hc. simpl rbind.
    rewrite odometer_step_snoc by assumption.
    destruct (x + 1 <? c).
    + simpl. rewrite <- app_assoc. reflexivity.
    + rewrite insert_middle.
      rewrite (IH xs (c :: csuf) (0 :: xsuf)) by (simpl; lia).
      simpl. rewrite <- app_assoc. reflexivity.
Qed.

Lemma carry_odometer_step counts indices :
  length counts = length indices ->
  carry counts indices (length indices)
  = Ok (snd (odometer_step counts indices)).
Proof.
  intros Hlen.
  pose proof (carry_prefix counts indices [] [] Hlen eq_refl) as H.
  rewrite !app_nil_r in H. exact H.
Qed.

(** From cell [n] the carry loop reaches cell [n + 1], and cell [0] after
    the last cell. *)
Lemma carry_digits counts n :
  Forall (fun c => 0 < c) counts -> 0 <= n < product counts ->
  carry counts (digits counts n) (length (digits counts n))
  = Ok (digits counts ((n + 1) mod product counts)).
Proof.
  intros Hpos Hn.
  rewrite carry_odometer_step by (rewrite digits_length; reflexivity).
  rewrite odometer_step_digits by assumption. reflexivity.
Qed.

End Carry.

(** ** [populateRow] and the loop of [ForEachRow] on well-shaped tables *)

Section ForEachRowFacts.

Lemma index_in_range {A} (s : list A) k :
  0 <= k < Z.of_nat (length s) ->
  exists x, s !! Z.to_nat k = Some x /\ index s k = Ok x.
Proof.
  intros Hk. destruct (lookup_lt_is_Some_2 s (Z.to_nat k)) as [x Hx]; [lia|].
  exists x. split; [exact Hx|]. unfold index.
  destruct (Z.ltb_spec k 0); [lia|]. rewrite Hx. reflexivity.
Qed.

Lemma populateRow_range_spec t indices :
  forall dpre dsuf rpre rsuf,
    tbl_Dimensions t = dpre ++ dsuf ->
    length rpre = length dpre -> length rsuf = length dsuf ->
    Forall2 (fun d k => 0 <= k < Z.of_nat (length (dim_Categories d)))
      dsuf indices ->
    populateRow_range t (rpre ++ rsuf) (length dpre) indices
    = Ok (rpre ++ categories_at dsuf indices).
Proof.
  induction indices as [|k rest IH]; intros dpre dsuf rpre rsuf Hd Hr Hs Hv.
  - inversion Hv; subst. destruct rsuf; [|discriminate]. reflexivity.
  - inversion Hv as [|d k' dsuf' rest' Hk Hv']; subst.
    destruct rsuf as [|r rsuf]; [discriminate|].
    simpl populateRow_range. rewrite Hd, at_middle. simpl rbind.
    destruct (index_in_range (dim_Categories d) k Hk) as (c & Hc & ->).
    simpl rbind. rewrite <- Hr, at_middle. simpl rbind.
    rewrite insert_middle.
    replace (rpre ++ _ :: rsuf) with ((rpre ++ [c]) ++ rsuf)
      by (rewrite <- app_assoc; destruct c; reflexivity).
    replace (S (length rpre)) with (length (dpre ++ [d]))
      by (rewrite length_app; simpl; lia).
    rewrite (IH (dpre ++ [d]) dsuf' (rpre ++ [c]) rsuf).
    + rewrite <- app_assoc. unfold categories_at. simpl. rewrite Hc.
      reflexivity.
    + rewrite <- app_assoc. exact Hd.
    + rewrite !length_app. simpl. lia.
    + simpl in Hs. lia.
    + exact Hv'.
Qed.

Lemma populated_counts_pos dims :
  Forall populated dims -> Forall (fun c => 0 < c) (dim_Count <$> dims).
Proof.
  intros H. apply Forall_fmap. eapply Forall_impl; [exact H|].
  intros d [Hd _]. exact Hd.
Qed.

Lemma populated_valid dims indices :
  Forall populated dims ->
  valid_indices (dim_Count <$> dims) indices ->
  Forall2 (fun d k => 0 <= k < Z.of_nat (length (dim_Categories d)))
    dims indices.
Proof.
  intros Hp Hv. unfold valid_indices in Hv. apply Forall2_fmap_l in Hv.
  revert Hp. induction Hv as [|d k ds ks Hk _ IH]; intros Hp; constructor.
  - apply Forall_cons_1 in Hp as [[_ He] _]. simpl in Hk. lia.
  - apply IH. apply Forall_cons_1 in Hp as [_ Hp]. exact Hp.
Qed.

Lemma categories_at_length dims indices :
  length dims = length indices ->
  length (categories_at dims indices) = length dims.
Proof. intros H. unfold categories_at. apply length_zip_with_l_eq, H. Qed.

Lemma mod_product_range counts i :
  Forall (fun c => 0 < c) counts ->
  0 <= Z.of_nat i mod product counts < product counts.
Proof. intros H. apply Z.mod_pos_bound, product_pos, H. Qed.

Lemma populateRow_at t row i v :
  Forall populated (tbl_Dimensions t) ->
  length (row_Categories row) = length (tbl_Dimensions t) ->
  tbl_Values t !! i = Some v ->
  populateRow t row (indices_at t i) i = Ok (row_at t i).
Proof.
  intros Hp Hrow Hv. unfold populateRow.
  pose proof (populateRow_range_spec t (indices_at t i) []
                (tbl_Dimensions t) [] (row_Categories row)) as H.
  simpl in H. rewrite H; clear H; auto.
  - simpl. unfold at_, row_at. rewrite Hv. reflexivity.
  - apply populated_valid; [exact Hp|]. unfold indices_at.
    apply digits_valid; [apply populated_counts_pos, Hp|].
    apply mod_product_range, populated_counts_pos, Hp.
Qed.

Lemma carry_at t i :
  Forall populated (tbl_Dimensions t) ->
  carry (dim_Count <$> tbl_Dimensions t) (indices_at t i)
    (length (indices_at t i))
  = Ok (indices_at t (S i)).
Proof.
  intros Hp. pose proof (populated_counts_pos _ Hp) as Hpos.
  unfold indices_at. rewrite carry_digits; auto using mod_product_range.
  rewrite Z.add_mod_idemp_l by (pose proof (product_pos _ Hpos); lia).
  rewrite Nat2Z.inj_succ. reflexivity.
Qed.

(** The loop visits cell [i], [i + 1], ... in turn and never panics. *)
Lemma ForEachRow_range_spec {Σ} t (cb : list Z -> Row -> Σ -> Σ) m :
  Forall populated (tbl_Dimensions t) ->
  forall i row s,
    length (row_Categories row) = length (tbl_Dimensions t) ->
    (i + m <= length (tbl_Values t))%nat ->
    ForEachRow_range t cb (dim_Count <$> tbl_Dimensions t) (seq i m)
      row (indices_at t i) s
    = (fold_left (fun s i => cb (indices_at t i) (row_at t i) s) (seq i m) s,
       Ok tt).
Proof.
  intros Hp. induction m as [|m IH]; intros i row s Hrow Hlen; [reflexivity|].
  destruct (lookup_lt_is_Some_2 (tbl_Values t) i) as [v Hv]; [lia|].
  simpl seq. simpl ForEachRow_range. unfold bind at 1. unfold lift at 1.
  rewrite (populateRow_at t row i v) by assumption.
  unfold bind at 1. unfold modify at 1.
  unfold bind at 1. unfold lift at 1.
  rewrite carry_at by assumption.
  rewrite IH; [reflexivity| |lia].
  simpl. apply categories_at_length. unfold indices_at.
  rewrite digits_length, length_fmap. reflexivity.
Qed.

Lemma ForEachRow_ghost_spec {Σ} t (cb : list Z -> Row -> Σ -> Σ) s :
  tbl_Error t = "" ->
  Forall populated (tbl_Dimensions t) ->
  ForEachRow_ghost t cb s
  = (fold_left (fun s i => cb (indices_at t i) (row_at t i) s)
       (seq 0 (length (tbl_Values t))) s, Ok tt).
Proof.
  intros He Hp. unfold ForEachRow_ghost. rewrite He. simpl negb. cbv iota.
  pose proof (ForEachRow_range_spec t cb (length (tbl_Values t)) Hp 0%nat) as H.
  unfold indices_at at 1 in H. simpl Z.of_nat in H.
  rewrite Zmod_0_l, digits_zero, length_fmap in H.
  apply H; [|lia]. simpl. apply length_replicate.
Qed.

End ForEachRowFacts.

(** ** The nested-loop order is the order of cell numbers *)

Section RowMajor.

Lemma seqZ_blocks c b :
  0 <= c -> 0 < b ->
  seqZ 0 (c * b)
  = flat_map (fun k => (fun r => k * b + r) <$> seqZ 0 b) (seqZ 0 c).
Proof.
  intros Hc Hb. revert c Hc.
  apply natlike_ind.
  - reflexivity.
  - intros c Hc IH.
    replace (Z.succ c * b) with (c * b + b) by lia.
    rewrite seqZ_app by nia.
    replace (Z.succ c) with (c + 1) by lia.
    rewrite (seqZ_app 0 c 1) by lia.
    rewrite flat_map_app, <- IH. f_equal.
    replace (seqZ (0 + c) 1) with [c]
      by (rewrite seqZ_cons by lia; rewrite seqZ_nil by lia; f_equal; lia).
    simpl. rewrite app_nil_r.
    change (fun r => c * b + r) with (Z.add (c * b)).
    rewrite fmap_add_seqZ. f_equal. lia.
Qed.

Lemma fmap_flat_map {A B C} (f : B -> C) (g : A -> list B) l :
  f <$> flat_map g l = flat_map (fun x => f <$> g x) l.
Proof.
  induction l as [|x l IH]; simpl; [reflexivity|].
  rewrite fmap_app, IH. reflexivity.
Qed.

Lemma digits_block c cs k :
  0 < product cs ->
  digits (c :: cs) <$> ((fun r => k * product cs + r) <$> seqZ 0 (product cs))
  = cons k <$> (digits cs <$> seqZ 0 (product cs)).
Proof.
  intros HP. rewrite <- !list_fmap_compose.
  apply list_fmap_ext. intros i r Hr.
  apply lookup_seqZ in Hr as [-> Hi]. simpl.
  destruct (divmod_block k (product cs) (0 + Z.of_nat i) ltac:(lia))
    as [-> ->].
  reflexivity.
Qed.

Lemma row_major_digits counts :
  Forall (fun c => 0 < c) counts ->
  row_major_nested_loop counts = digits counts <$> seqZ 0 (product counts).
Proof.
  induction 1 as [|c cs Hc Hcs IH]; [reflexivity|].
  pose proof (product_pos _ Hcs) as HP.
  simpl row_major_nested_loop. simpl product.
  rewrite seqZ_blocks by lia. rewrite fmap_flat_map, IH.
  apply flat_map_ext. intros k. symmetry. apply digits_block, HP.
Qed.

Lemma row_major_NoDup counts :
  Forall (fun c => 0 < c) counts -> NoDup (row_major_nested_loop counts).
Proof.
  intros Hpos. rewrite row_major_digits by assumption.
  apply NoDup_fmap_2_strong; [|apply NoDup_seqZ].
  intros x y Hx Hy Heq.
  apply elem_of_seqZ in Hx, Hy.
  rewrite <- (cell_number_digits counts x), <- (cell_number_digits counts y)
    by (auto; lia).
  rewrite Heq. reflexivity.
Qed.

Lemma row_major_complete counts v :
  Forall (fun c => 0 < c) counts ->
  v ∈ row_major_nested_loop counts <-> valid_indices counts v.
Proof.
  intros Hpos. rewrite row_major_digits by assumption. split.
  - intros (n & -> & Hn)%list_elem_of_fmap. apply elem_of_seqZ in Hn.
    apply digits_valid; [assumption | lia].
  - intros Hv. apply list_elem_of_fmap.
    exists (cell_number counts v). split.
    + symmetry. apply digits_cell_number, Hv.
    + apply elem_of_seqZ. pose proof (cell_number_bound _ _ Hv). lia.
Qed.

Lemma row_major_length counts :
  Forall (fun c => 0 < c) counts ->
  length (row_major_nested_loop counts) = Z.to_nat (product counts).
Proof.
  intros Hpos. rewrite row_major_digits by assumption.
  rewrite length_fmap, length_seqZ. reflexivity.
Qed.

Lemma fold_left_snoc {A B} (f : A -> B) l acc :
  fold_left (fun s i => s ++ [f i]) l acc = acc ++ (f <$> l).
Proof.
  revert acc; induction l as [|x l IH]; intros acc; simpl.
  - rewrite app_nil_r. reflexivity.
  - rewrite IH, <- app_assoc. reflexivity.
Qed.

Lemma fold_left_fmap {A B Σ} (f : A -> B) (g : B -> Σ -> Σ) l s :
  fold_left (fun s i => g (f i) s) l s
  = fold_left (fun s r => g r s) (f <$> l) s.
Proof. revert s; induction l as [|x l IH]; intros s; simpl; auto. Qed.

(** Within the first [product] cells no wrap-around has happened. *)
Lemma indices_at_row_major t :
  Forall populated (tbl_Dimensions t) ->
  indices_at t <$> seq 0 (Z.to_nat (product (dim_Count <$> tbl_Dimensions t)))
  = row_major_nested_loop (dim_Count <$> tbl_Dimensions t).
Proof.
  intros Hp. pose proof (populated_counts_pos _ Hp) as Hpos.
  rewrite row_major_digits by assumption.
  unfold seqZ. rewrite <- list_fmap_compose.
  apply list_fmap_ext. intros i x Hx.
  apply lookup_seq in Hx as [-> Hi]. simpl. unfold indices_at.
  rewrite Z.add_0_r. rewrite Z.mod_small by lia. reflexivity.
Qed.

Lemma row_at_zip t :
  row_at t <$> seq 0 (length (tbl_Values t))
  = zip_with (fun idx v => mkRow (categories_at (tbl_Dimensions t) idx) v)
      (indices_at t <$> seq 0 (length (tbl_Values t))) (tbl_Values t).
Proof.
  apply list_eq. intros i.
  rewrite lookup_zip_with, !list_lookup_fmap.
  destruct (decide (i < length (tbl_Values t))%nat) as [Hi|Hi].
  - rewrite lookup_seq_lt by assumption. simpl.
    destruct (lookup_lt_is_Some_2 (tbl_Values t) i Hi) as [v Hv].
    unfold row_at. rewrite Hv. reflexivity.
  - rewrite lookup_seq_ge by lia. reflexivity.
Qed.

End RowMajor.

(** ** [ForEachRow] as a whole *)

Lemma nonneg_counts_product counts :
  Forall (fun c => 0 <= c) counts ->
  Forall (fun c => 0 < c) counts \/ product counts = 0.
Proof.
  induction 1 as [|c cs Hc _ [IH|IH]]; simpl.
  - left. constructor.
  - destruct (Z.eq_dec c 0) as [->|Hne]; [right; lia|].
    left. constructor; [lia | exact IH].
  - right. rewrite IH. lia.
Qed.

Lemma ForEachRow_error {Σ} t (cb : Row -> Σ -> Σ) s :
  tbl_Error t <> "" ->
  ForEachRow t cb s = (s, Panicked (PanicString (tbl_Error t))).
Proof.
  intros He. unfold ForEachRow, ForEachRow_ghost.
  destruct (String.eqb_spec (tbl_Error t) "") as [E|_]; [contradiction|].
  reflexivity.
Qed.

Lemma ForEachRow_no_values {Σ} t (cb : Row -> Σ -> Σ) s :
  tbl_Error t = "" -> tbl_Values t = [] -> ForEachRow t cb s = (s, Ok tt).
Proof.
  intros He Hv. unfold ForEachRow, ForEachRow_ghost.
  rewrite He, Hv. reflexivity.
Qed.

Lemma ForEachRow_spec {Σ} t (cb : Row -> Σ -> Σ) s :
  tbl_Error t = "" ->
  Forall populated (tbl_Dimensions t) ->
  ForEachRow t cb s
  = (fold_left (fun s i => cb (row_at t i) s)
       (seq 0 (length (tbl_Values t))) s, Ok tt).
Proof. intros He Hp. unfold ForEachRow. apply ForEachRow_ghost_spec; auto. Qed.

Lemma fold_left_count {A} (l : list A) (n : nat) :
  fold_left (fun s _ => S s) l n = (n + length l)%nat.
Proof.
  revert n; induction l as [|x l IH]; intros n; simpl; [lia|].
  rewrite IH. lia.
Qed.

(** ** The row loop of [decodeValues] *)

Section DecodeValues.

Variable dims : list Dimension.

Lemma consume_w st : st_w (consume st) = st_w st.
Proof.
  unfold consume. destruct (dec_stack (st_dec st)) as [|[p rest|[|v rest]] stk];
    reflexivity.
Qed.

Lemma labels_range_length ti rng cols :
  labels_range ti rng = Ok cols -> length cols = length rng.
Proof.
  revert cols; induction rng as [|i rng IH]; intros cols H; simpl in H.
  - injection H as <-. reflexivity.
  - destruct (CategoryAtColumn ti i); simpl in H; [|discriminate].
    destruct (labels_range ti rng); simpl in H; [|discriminate].
    injection H as <-. simpl. f_equal. apply IH. reflexivity.
Qed.

(** Whatever the state, one iteration either panics without writing or
    writes one record of [len(dims) + 1] fields. *)
Lemma decodeValues_row_shape ti st :
  (st_w (fst (decodeValues_row dims ti st)) = st_w st
   /\ exists p, snd (decodeValues_row dims ti st) = Panicked p)
  \/ (exists row, st_w (fst (decodeValues_row dims ti st)) = st_w st ++ [row]
                  /\ length row = S (length dims)).
Proof.
  unfold decodeValues_row, bind at 1, lift.
  destruct (labels_range ti (seq 0 (length dims))) as [cols|p] eqn:Hcols;
    [|left; simpl; eauto].
  apply labels_range_length in Hcols. rewrite length_seq in Hcols.
  unfold DecodeNumber, bind, nextValue.
  destruct (peek st) as [v|]; [|left; simpl; eauto].
  destruct v; simpl; rewrite ?consume_w; try (left; eauto; fail).
  right. eexists. split; [reflexivity|].
  rewrite length_app. simpl. lia.
Qed.

Lemma decodeValues_rows_shape fuel :
  forall ti st,
    exists rows,
      st_w (fst (forMore_fuel fuel (decodeValues_row dims) ti st))
      = st_w st ++ rows
      /\ Forall (fun row => length row = S (length dims)) rows.
Proof.
  induction fuel as [|fuel IH]; intros ti st; simpl; unfold bind at 1, More.
  - exists []. rewrite app_nil_r.
    destruct (0 <? remaining st)%nat; split; auto.
  - destruct (0 <? remaining st)%nat;
      [|exists []; rewrite app_nil_r; split; auto].
    unfold bind at 1.
    destruct (decodeValues_row_shape ti st) as [[Hw [p Hp]]|(row & Hw & Hlen)].
    + destruct (decodeValues_row dims ti st) as [st1 [ti1|p1]]; simpl in *;
        [discriminate|].
      exists []. rewrite app_nil_r. split; auto.
    + destruct (decodeValues_row dims ti st) as [st1 [ti1|p1]]; simpl in *.
      * destruct (IH ti1 st1) as (rows & Hrows & Hall).
        exists (row :: rows). rewrite Hrows, Hw, <- app_assoc. split; auto.
      * exists [row]. split; auto.
Qed.

(** The header is written first, whatever follows. *)
Lemma decodeValues_shape st :
  exists rows,
    st_w (fst (decodeValues dims st)) = st_w st ++ csv_header dims :: rows
    /\ Forall (fun row => length row = S (length dims)) rows.
Proof.
  unfold decodeValues, bind at 1, write, modify, csv_header.
  set (hdr := ((fun d => var_Label (dim_Variable d)) <$> dims) ++ ["count"]).
  set (st0 := mkState (st_dec st) (Write hdr (st_w st))).
  unfold bind at 1. unfold forMore.
  destruct (decodeValues_rows_shape (remaining st0) (NewIterator dims) st0)
    as (rows & Hrows & Hall).
  exists rows. split; [|exact Hall].
  destruct (forMore_fuel _ _ _ st0) as [st1 [ti1|p1]]; simpl in *;
    rewrite Hrows; unfold Write; rewrite <- app_assoc; reflexivity.
Qed.

Hypothesis dims_populated : Forall populated dims.

Local Abbreviation counts := (dim_Count <$> dims) (only parsing).

Lemma labels_range_suffix ti dpre dsuf ipre isuf :
  it_dims ti = dpre ++ dsuf -> it_indices ti = ipre ++ isuf ->
  length ipre = length dpre ->
  Forall2 (fun d k => 0 <= k < Z.of_nat (length (dim_Categories d))) dsuf isuf ->
  labels_range ti (seq (length dpre) (length dsuf))
  = Ok (cat_Label <$> categories_at dsuf isuf).
Proof.
  intros Hd Hi. revert dpre ipre isuf Hd Hi.
  induction dsuf as [|d dsuf IH]; intros dpre ipre isuf Hd Hi Hlen Hv.
  - inversion Hv; subst. reflexivity.
  - inversion Hv as [|d' k dsuf' isuf' Hk Hv']; subst.
    simpl. unfold CategoryAtColumn.
    rewrite Hd, at_middle. simpl rbind.
    rewrite Hi, <- Hlen, at_middle. simpl rbind.
    destruct (index_in_range (dim_Categories d) k Hk) as (c & Hc & ->).
    simpl rbind.
    replace (S (length ipre)) with (length (dpre ++ [d]))
      by (rewrite length_app; simpl; lia).
    rewrite (IH (dpre ++ [d]) (ipre ++ [k]) isuf');
      rewrite <- ?app_assoc; auto.
    + simpl. unfold categories_at. simpl. rewrite Hc. reflexivity.
    + rewrite !length_app. simpl. lia.
Qed.

Lemma labels_range_at i :
  labels_range (mkIterator dims (digits counts (Z.of_nat i mod product counts)))
    (seq 0 (length dims))
  = Ok (labels_at dims i).
Proof.
  pose proof (populated_counts_pos _ dims_populated) as Hpos.
  apply (labels_range_suffix _ [] dims []); auto.
  apply populated_valid; [exact dims_populated|].
  apply digits_valid; [exact Hpos|]. apply mod_product_range, Hpos.
Qed.

Lemma Next_at i :
  Next (mkIterator dims (digits counts (Z.of_nat i mod product counts)))
  = mkIterator dims (digits counts (Z.of_nat (S i) mod product counts)).
Proof.
  pose proof (populated_counts_pos _ dims_populated) as Hpos.
  unfold Next. simpl.
  rewrite odometer_step_digits by (auto using mod_product_range).
  simpl. rewrite Z.add_mod_idemp_l by (pose proof (product_pos _ Hpos); lia).
  rewrite Nat2Z.inj_succ. reflexivity.
Qed.

Lemma decodeValues_row_spec i v elems input stk w :
  decodeValues_row dims
    (mkIterator dims (digits counts (Z.of_nat i mod product counts)))
    (inArray input (JNumber v :: elems) stk w)
  = (inArray input elems stk (w ++ [labels_at dims i ++ [Itoa v]]),
     Ok (mkIterator dims (digits counts (Z.of_nat (S i) mod product counts)))).
Proof.
  unfold decodeValues_row, bind at 1, lift.
  rewrite labels_range_at, Next_at. reflexivity.
Qed.

Lemma More_inArray input elems stk w :
  More (inArray input elems stk w)
  = (inArray input elems stk w, Ok (0 <? length elems)%nat).
Proof. reflexivity. Qed.

(** On an array of numbers the loop writes one record per element and
    leaves the array exhausted. *)
Lemma decodeValues_rows_spec values :
  forall i fuel input stk w,
    (length values <= fuel)%nat ->
    forMore_fuel fuel (decodeValues_row dims)
      (mkIterator dims (digits counts (Z.of_nat i mod product counts)))
      (inArray input (JNumber <$> values) stk w)
    = (inArray input [] stk (w ++ csv_rows dims i values),
       Ok (mkIterator dims
             (digits counts (Z.of_nat (i + length values) mod product counts)))).
Proof.
  induction values as [|v values IH]; intros i fuel input stk w Hfuel.
  - destruct fuel; simpl; rewrite app_nil_r, Nat.add_0_r; reflexivity.
  - destruct fuel as [|fuel]; [simpl in Hfuel; lia|].
    rewrite fmap_cons. cbn [forMore_fuel].
    unfold bind at 1. rewrite More_inArray. cbn [length Nat.ltb Nat.leb].
    unfold bind at 1. rewrite decodeValues_row_spec.
    rewrite IH by (simpl in Hfuel; lia).
    rewrite <- app_assoc, Nat.add_succ_r. reflexivity.
Qed.

Lemma decodeValues_spec values input stk w :
  decodeValues dims (inArray input (JNumber <$> values) stk w)
  = (inArray input [] stk (w ++ csv_header dims :: csv_rows dims 0 values),
     Ok tt).
Proof.
  pose proof (populated_counts_pos _ dims_populated) as Hpos.
  unfold decodeValues, bind at 1, write, modify. simpl.
  unfold bind at 1, forMore. simpl remaining.
  unfold NewIterator.
  assert (digits counts (Z.of_nat 0 mod product counts)
          = replicate (length dims) 0) as Hzero.
  { change (Z.of_nat 0) with 0. rewrite Zmod_0_l, digits_zero.
    f_equal. apply length_fmap. }
  rewrite <- Hzero.
  change (mkState (mkDecoder input (InArray (JNumber <$> values) :: stk))
            (Write (((fun d => var_Label (dim_Variable d)) <$> dims) ++ ["count"]) w))
    with (inArray input (JNumber <$> values) stk (w ++ [csv_header dims])).
  rewrite decodeValues_rows_spec
    by (change (length values <= length (JNumber <$> values))%nat;
        rewrite length_fmap; lia).
  simpl. rewrite <- app_assoc. reflexivity.
Qed.

End DecodeValues.

(** ** What the in-memory program writes *)

Section SimpleOutput.

Variable t : Table.

Lemma populateRow_range_length indices :
  forall rowCats j rowCats',
    populateRow_range t rowCats j indices = Ok rowCats' ->
    length rowCats' = length rowCats.
Proof.
  induction indices as [|k rest IH]; intros rowCats j rowCats' H; simpl in H.
  - injection H as <-. reflexivity.
  - destruct (at_ (tbl_Dimensions t) j) as [d|]; simpl in H; [|discriminate].
    destruct (index (dim_Categories d) k) as [c|]; simpl in H; [|discriminate].
    destruct (at_ rowCats j) as [r|]; simpl in H; [|discriminate].
    apply IH in H. rewrite H. apply length_insert.
Qed.

Lemma populateRow_length row indices i row' :
  populateRow t row indices i = Ok row' ->
  length (row_Categories row') = length (row_Categories row).
Proof.
  unfold populateRow. intros H.
  destruct (populateRow_range t (row_Categories row) 0 indices) as [cats|] eqn:E;
    simpl in H; [|discriminate].
  destruct (at_ (tbl_Values t) i); simpl in H; [|discriminate].
  injection H as <-. simpl. eapply populateRow_range_length, E.
Qed.

(** Every record the callback of [main] writes has one field per dimension
    and one for the count, also on a table that makes the loop panic. *)
Lemma ForEachRow_range_shape dimCounts rng :
  forall row dimIndices w,
    exists rows,
      fst (ForEachRow_range t (fun _ => writeRow) dimCounts rng row dimIndices w)
      = w ++ rows
      /\ Forall (fun r => length r = S (length (row_Categories row))) rows.
Proof.
  induction rng as [|i rng IH]; intros row dimIndices w.
  - exists []. simpl. rewrite app_nil_r. auto.
  - simpl. unfold bind at 1, lift.
    destruct (populateRow t row dimIndices i) as [row'|p] eqn:Hrow;
      [|exists []; simpl; rewrite app_nil_r; auto].
    apply populateRow_length in Hrow.
    unfold bind at 1, modify. unfold bind at 1.
    assert (length ((cat_Label <$> row_Categories row') ++ [Itoa (row_Count row')])
            = S (length (row_Categories row))) as Hlen
      by (rewrite length_app, length_fmap, Hrow; simpl; lia).
    destruct (carry dimCounts dimIndices (length dimIndices)) as [di'|p].
    + destruct (IH row' di' (writeRow row' w)) as (rows & Hrows & Hall).
      eexists (_ :: rows). rewrite Hrows. unfold writeRow, Write.
      rewrite <- app_assoc. split; [reflexivity|].
      constructor; [exact Hlen|]. rewrite <- Hrow. exact Hall.
    + eexists [_]. simpl. unfold writeRow, Write. split; [reflexivity|].
      constructor; [exact Hlen | constructor].
Qed.

Lemma main_simple_shape errors :
  errors = [] ->
  exists rows,
    fst (main_simple (mkResponse t errors) []) = Header t :: rows
    /\ Forall (fun r => length r = S (length (tbl_Dimensions t))) rows.
Proof.
  intros ->. unfold main_simple. simpl. unfold bind, modify. simpl.
  unfold ForEachRow, ForEachRow_ghost.
  destruct (negb (String.eqb (tbl_Error t) "")); [exists []; auto|].
  match goal with
  | |- context [ForEachRow_range t ?cb ?cs ?rng ?row ?di ?w] =>
      destruct (ForEachRow_range_shape cs rng row di w) as (rows & Hrows & Hall)
  end.
  exists rows. split; [exact Hrows|].
  simpl in Hall. rewrite length_replicate in Hall. exact Hall.
Qed.

Hypothesis t_populated : Forall populated (tbl_Dimensions t).
Hypothesis t_no_error : tbl_Error t = "".

Lemma writeRow_row_at i v w :
  tbl_Values t !! i = Some v ->
  writeRow (row_at t i) w = w ++ [labels_at (tbl_Dimensions t) i ++ [Itoa v]].
Proof. intros Hv. unfold writeRow, Write, row_at. simpl. rewrite Hv. reflexivity. Qed.

Lemma fold_writeRow m :
  forall i w,
    (i + m = length (tbl_Values t))%nat ->
    fold_left (fun s i => writeRow (row_at t i) s) (seq i m) w
    = w ++ csv_rows (tbl_Dimensions t) i (drop i (tbl_Values t)).
Proof.
  induction m as [|m IH]; intros i w Hlen.
  - rewrite drop_ge by lia. simpl. rewrite app_nil_r. reflexivity.
  - destruct (lookup_lt_is_Some_2 (tbl_Values t) i) as [v Hv]; [lia|].
    rewrite (drop_S _ _ _ Hv). simpl.
    rewrite (writeRow_row_at i v w Hv), IH by lia.
    rewrite <- app_assoc. reflexivity.
Qed.

(** On a well-shaped table the program writes the header and then one
    record per value, whatever the number of values. *)
Lemma main_simple_spec :
  main_simple (mkResponse t []) []
  = (Header t :: csv_rows (tbl_Dimensions t) 0 (tbl_Values t), Ok tt).
Proof.
  unfold main_simple. simpl. unfold bind, modify.
  rewrite ForEachRow_spec by assumption.
  rewrite fold_writeRow by lia. reflexivity.
Qed.

End SimpleOutput.

Lemma csv_rows_length dims values : forall i, length (csv_rows dims i values) = length values.
Proof. induction values as [|v values IH]; intros i; simpl; auto. Qed.

(** ** The member loops of the streaming program *)

Lemma nonempty_length_pos (s : string) :
  s <> "" -> (0 <? String.length s)%nat = true.
Proof. destruct s; [congruence | reflexivity]. Qed.

Lemma eqb_other (a b : string) : a <> b -> String.eqb a b = false.
Proof. apply String.eqb_neq. Qed.

Section Cursor.

Variable input : option json.
Variable stk : list frame.

Lemma forMore_nil {L} (body : L -> M State L) l p w :
  forMore body l (inObject input p [] stk w) = (inObject input p [] stk w, Ok l).
Proof. reflexivity. Qed.

Lemma forMore_cons {L} (body : L -> M State L) l p m rest w :
  forMore body l (inObject input p (m :: rest) stk w)
  = (l' <- body l ;; forMore_fuel (length rest) body l')
      (inObject input p (m :: rest) stk w).
Proof. reflexivity. Qed.

(** When the body leaves the cursor in the same object, before the members
    that were still to come, the loop goes on from there. *)
Lemma forMore_step {L} (body : L -> M State L) l l' p p' m rest w w' :
  body l (inObject input p (m :: rest) stk w)
  = (inObject input p' rest stk w', Ok l') ->
  forMore body l (inObject input p (m :: rest) stk w)
  = forMore body l' (inObject input p' rest stk w').
Proof. intros H. rewrite forMore_cons. unfold bind. rewrite H. reflexivity. Qed.

Lemma forMore_panic {L} (body : L -> M State L) l p m rest w st' pn :
  body l (inObject input p (m :: rest) stk w) = (st', Panicked pn) ->
  forMore body l (inObject input p (m :: rest) stk w) = (st', Panicked pn).
Proof. intros H. rewrite forMore_cons. unfold bind. rewrite H. reflexivity. Qed.

(** *** [graphqlJSONToCSV] *)

Lemma field_unrecognized name v p rest w :
  name <> "data" -> name <> "errors" ->
  graphqlJSONToCSV_field tt (inObject input p ((name, v) :: rest) stk w)
  = (inObject input (Some v) rest stk w, Ok tt).
Proof.
  intros Hd He. unfold graphqlJSONToCSV_field, bind, DecodeName. simpl.
  rewrite (eqb_other _ _ Hd), (eqb_other _ _ He). reflexivity.
Qed.



(** *** [decodeTableFields] *)

Lemma table_field_unrecognized dims name v p rest w :
  name <> "dimensions" -> name <> "error" -> name <> "values" ->
  decodeTableFields_field dims (inObject input p ((name, v) :: rest) stk w)
  = (inObject input (Some v) rest stk w, Ok dims).
Proof.
  intros Hd He Hv. unfold decodeTableFields_field, bind, DecodeName. simpl.
  rewrite (eqb_other _ _ Hd), (eqb_other _ _ He), (eqb_other _ _ Hv).
  reflexivity.
Qed.

Lemma table_field_dimensions dims jd dims' p rest w :
  decode_Dimensions jd = Some dims' ->
  decodeTableFields_field dims
    (inObject input p (("dimensions", jd) :: rest) stk w)
  = (inObject input None rest stk w, Ok dims').
Proof.
  intros Hdec. unfold decodeTableFields_field, bind at 1, DecodeName. simpl.
  unfold bind, Decode, bind, nextValue. simpl. rewrite Hdec. reflexivity.
Qed.

Lemma table_field_error dims v p rest w :
  decodeTableFields_field dims (inObject input p (("error", v) :: rest) stk w)
  = (inObject input None rest stk w,
     match v with
     | JString msg => Panicked (PanicString ("Table blocked: " +:+ msg))
     | JNull => Ok dims
     | _ => Panicked StructuralError
     end).
Proof.
  unfold decodeTableFields_field, bind at 1, DecodeName. simpl.
  unfold bind, DecodeString, bind, nextValue. simpl.
  destruct v; reflexivity.
Qed.

Lemma table_field_values_nil v p rest w :
  decodeTableFields_field None (inObject input p (("values", v) :: rest) stk w)
  = (inObject input (Some v) rest stk w,
     Panicked (PanicString "values received before dimensions")).
Proof. reflexivity. Qed.

Lemma table_field_values ds values p rest w :
  Forall populated ds ->
  decodeTableFields_field (Some ds)
    (inObject input p (("values", jValues values) :: rest) stk w)
  = (inObject input None rest stk
       (w ++ csv_header ds :: csv_rows ds 0 values), Ok (Some ds)).
Proof.
  intros Hp. unfold decodeTableFields_field, bind at 1, DecodeName. simpl.
  unfold bind at 1, StartArrayComposite. simpl.
  match goal with
  | |- context [set_stack (InArray ?es :: ?stk') ?st] =>
      change (set_stack (InArray es :: stk') st) with (inArray input es stk' w)
  end.
  unfold bind at 1. unfold bind at 1.
  rewrite decodeValues_spec by assumption. reflexivity.
Qed.

(** [values] met while [dims] is still [nil]. *)
Lemma loop_values_before_dimensions pre v post :
  Forall (fun m => fst m <> "dimensions" /\ fst m <> "values") pre ->
  forall p w,
    exists st' pn,
      forMore decodeTableFields_field None
        (inObject input p (pre ++ ("values", v) :: post) stk w)
      = (st', Panicked pn)
      /\ st_w st' = w
      /\ (pn = PanicString "values received before dimensions"
          \/ (exists msg, pn = PanicString ("Table blocked: " +:+ msg))
          \/ pn = StructuralError)
      /\ (Forall (fun m => fst m <> "error") pre ->
          pn = PanicString "values received before dimensions").
Proof.
  induction 1 as [|[name x] pre [Hd Hv] _ IH]; intros p w; simpl app.
  - eexists _, _. split; [apply forMore_panic, table_field_values_nil|].
    simpl. auto.
  - destruct (String.eqb_spec name "error") as [->|He].
    + pose proof (table_field_error None x p
                    (pre ++ ("values", v) :: post) w) as Hx.
      destruct x;
        try (eexists _, _; split; [apply forMore_panic, Hx|];
             simpl; repeat split; eauto;
             intros Hno; apply Forall_cons_1 in Hno as [Hno _];
             contradiction; fail).
      erewrite forMore_step by exact Hx.
      destruct (IH None w) as (st' & pn & Hrun & Hw & Hkind & _).
      exists st', pn. repeat split; auto.
      intros Hno. apply Forall_cons_1 in Hno as [Hno _]. contradiction.
    + erewrite forMore_step by (apply table_field_unrecognized; assumption).
      destruct (IH (Some x) w) as (st' & pn & Hrun & Hw & Hkind & Hmsg).
      exists st', pn. repeat split; auto.
      intros Hno. apply Hmsg. apply Forall_cons_1 in Hno as [_ Hno]. exact Hno.
Qed.


End Cursor.

(** ** From the member loops to whole responses *)

Lemma bind_panic {Σ A B} (m : M Σ A) (k : A -> M Σ B) s s' p :
  m s = (s', Panicked p) -> bind m k s = (s', Panicked p).
Proof. intros H. unfold bind. rewrite H. reflexivity. Qed.

Lemma bind_ok {Σ A B} (m : M Σ A) (k : A -> M Σ B) s s' a :
  m s = (s', Ok a) -> bind m k s = k a s'.
Proof. intros H. unfold bind. rewrite H. reflexivity. Qed.

Lemma run_object members :
  run (JObject members)
  = (forMore graphqlJSONToCSV_field tt ;;; EndComposite)
      (inObject None None members [] []).
Proof. reflexivity. Qed.

Lemma field_data input stk members p rest w :
  graphqlJSONToCSV_field tt
    (inObject input p (("data", JObject members) :: rest) stk w)
  = (decodeDataFields ;;; EndComposite)
      (inObject input None members (InObject None rest :: stk) w).
Proof. reflexivity. Qed.

Lemma decodeDataFields_table input stk tableMembers r2 r1 p w :
  decodeDataFields
    (inObject input p
       (("dataset", JObject (("table", JObject tableMembers) :: r2)) :: r1)
       stk w)
  = ((decodeTableFields ;;; EndComposite) ;;; EndComposite)
      (inObject input None tableMembers
         (InObject None r2 :: InObject None r1 :: stk) w).
Proof. reflexivity. Qed.

Lemma run_envelope_panic tableMembers r2 r1 r0 st' pn :
  forMore decodeTableFields_field None (inTable tableMembers r2 r1 r0 [])
  = (st', Panicked pn) ->
  run (jEnvelope tableMembers r2 r1 r0) = (st', Panicked pn).
Proof.
  intros H. unfold inTable in H. unfold jEnvelope. rewrite run_object.
  apply bind_panic, forMore_panic. rewrite field_data.
  apply bind_panic. rewrite decodeDataFields_table.
  apply bind_panic, bind_panic. unfold decodeTableFields.
  apply bind_panic. exact H.
Qed.

Lemma run_envelope_ok tableMembers r2 r1 r0 p' w' dims :
  forMore decodeTableFields_field None (inTable tableMembers r2 r1 r0 [])
  = (inTable [] r2 r1 r0 w', Ok dims) ->
  p' = None ->
  run (jEnvelope tableMembers r2 r1 r0)
  = (forMore graphqlJSONToCSV_field tt ;;; EndComposite)
      (inObject None p' r0 [] w').
Proof.
  intros H ->. unfold inTable in H. unfold jEnvelope. rewrite run_object.
  unfold bind at 1. rewrite forMore_cons. unfold bind at 1.
  rewrite field_data. unfold bind at 1.
  rewrite decodeDataFields_table. unfold bind at 1. unfold bind at 1.
  unfold decodeTableFields. unfold bind at 1. rewrite H.
  reflexivity.
Qed.

(** A well-formed table object: dimensions, then the values. *)
Lemma run_dimensions_values jd dims values :
  decode_Dimensions jd = Some (Some dims) ->
  Forall populated dims ->
  run (jResponse [("dimensions", jd); ("values", jValues values)])
  = (finished (csv_header dims :: csv_rows dims 0 values), Ok tt).
Proof.
  intros Hdec Hp. unfold jResponse.
  erewrite (run_envelope_ok _ [] [] [] None).
  - reflexivity.
  - unfold inTable.
    erewrite forMore_step by (apply table_field_dimensions, Hdec).
    erewrite forMore_step by (apply table_field_values, Hp).
    apply forMore_nil.
  - reflexivity.
Qed.

(** The pending value of the member just left plays no part in what the
    loops do next. *)
Lemma top_loop_pending input stk p p' rest w :
  (forMore graphqlJSONToCSV_field tt ;;; EndComposite)
    (inObject input p rest stk w)
  = (forMore graphqlJSONToCSV_field tt ;;; EndComposite)
      (inObject input p' rest stk w).
Proof. destruct rest as [|[name v] rest]; reflexivity. Qed.


(** [mustMatchName] on a first member of another name. *)
Lemma decodeDataFields_not_dataset input stk name v rest p w :
  name <> "dataset" ->
  decodeDataFields (inObject input p ((name, v) :: rest) stk w)
  = (inObject input (Some v) rest stk w,
     Panicked (PanicExpected "dataset" name)).
Proof.
  intros Hn.
  unfold decodeDataFields, bind at 1, mustMatchName, bind, DecodeName.
  simpl. rewrite (eqb_other _ _ Hn). reflexivity.
Qed.

Lemma decodeDataFields_not_table input stk name v r2 r1 p w :
  name <> "table" ->
  decodeDataFields
    (inObject input p (("dataset", JObject ((name, v) :: r2)) :: r1) stk w)
  = (inObject input (Some v) r2 (InObject None r1 :: stk) w,
     Panicked (PanicExpected "table" name)).
Proof.
  intros Hn.
  unfold decodeDataFields, bind at 1, mustMatchName at 1, bind at 1,
    DecodeName at 1. simpl.
  unfold bind at 1, StartObjectComposite at 1. simpl.
  unfold bind at 1, mustMatchName, bind, DecodeName. simpl.
  rewrite (eqb_other _ _ Hn). reflexivity.
Qed.

(** ** The loop bound is never reached *)

Section Totality.

Variable input : option json.

(** A loop whose body, started before a member of an object, never reaches
    the bound and, when it returns, leaves the cursor in the same object
    before the members that were still to come, consumes the object. *)
Lemma forMore_object_total {L} (body : L -> M State L) stk :
  (forall l p m rest w,
     snd (body l (inObject input p (m :: rest) stk w)) <> Panicked OutOfFuel
     /\ forall l', snd (body l (inObject input p (m :: rest) stk w)) = Ok l' ->
          exists p' w',
            fst (body l (inObject input p (m :: rest) stk w))
            = inObject input p' rest stk w') ->
  forall members l p w,
    snd (forMore body l (inObject input p members stk w)) <> Panicked OutOfFuel
    /\ forall l', snd (forMore body l (inObject input p members stk w)) = Ok l' ->
         exists p' w',
           fst (forMore body l (inObject input p members stk w))
           = inObject input p' [] stk w'.
Proof.
  intros Hbody members.
  induction members as [|m rest IH]; intros l p w.
  - rewrite forMore_nil. simpl. split; [discriminate | eauto].
  - rewrite forMore_cons. unfold bind.
    destruct (Hbody l p m rest w) as [Hfuel Hok].
    destruct (body l (inObject input p (m :: rest) stk w)) as [st1 [l1|p1]];
      simpl in *.
    + destruct (Hok l1 eq_refl) as (p' & w' & ->).
      apply (IH l1 p' w').
    + split; [exact Hfuel | discriminate].
Qed.

Lemma forMore_array_total {L} (body : L -> M State L) stk :
  (forall l e rest w,
     snd (body l (inArray input (e :: rest) stk w)) <> Panicked OutOfFuel
     /\ forall l', snd (body l (inArray input (e :: rest) stk w)) = Ok l' ->
          exists w', fst (body l (inArray input (e :: rest) stk w))
                     = inArray input rest stk w') ->
  forall elems l w,
    snd (forMore body l (inArray input elems stk w)) <> Panicked OutOfFuel
    /\ forall l', snd (forMore body l (inArray input elems stk w)) = Ok l' ->
         exists w', fst (forMore body l (inArray input elems stk w))
                    = inArray input [] stk w'.
Proof.
  intros Hbody elems.
  induction elems as [|e rest IH]; intros l w.
  - split; [discriminate | eauto].
  - change (forMore body l (inArray input (e :: rest) stk w))
      with ((l' <- body l ;; forMore_fuel (length rest) body l')
              (inArray input (e :: rest) stk w)).
    unfold bind.
    destruct (Hbody l e rest w) as [Hfuel Hok].
    destruct (body l (inArray input (e :: rest) stk w)) as [st1 [l1|p1]];
      simpl in *.
    + destruct (Hok l1 eq_refl) as (w' & ->).
      apply (IH l1 w').
    + split; [exact Hfuel | discriminate].
Qed.

Lemma decodeValues_row_total dims stk ti e rest w :
  snd (decodeValues_row dims ti (inArray input (e :: rest) stk w))
  <> Panicked OutOfFuel
  /\ forall ti',
       snd (decodeValues_row dims ti (inArray input (e :: rest) stk w)) = Ok ti' ->
       exists w',
         fst (decodeValues_row dims ti (inArray input (e :: rest) stk w))
         = inArray input rest stk w'.
Proof.
  unfold decodeValues_row, bind at 1, lift.
  destruct (labels_range ti (seq 0 (length dims))) as [cols|pn] eqn:Hcols.
  - destruct e; simpl; split; try discriminate; eauto.
  - simpl. split; [intros H; injection H as ->|discriminate].
    clear -Hcols. exfalso.
    revert Hcols. generalize (seq 0 (length dims)). intros rng.
    induction rng as [|i rng IH]; simpl; [discriminate|].
    unfold CategoryAtColumn, at_, index.
    destruct (it_dims ti !! i); simpl; [|discriminate].
    destruct (it_indices ti !! i) as [k|]; simpl; [|discriminate].
    destruct (k <? 0); simpl; [discriminate|].
    destruct (_ !! Z.to_nat k); simpl; [|discriminate].
    destruct (labels_range ti rng) as [|pn] eqn:E; simpl; [discriminate|].
    intros H. injection H as ->. apply IH. reflexivity.
Qed.

Lemma decodeValues_total dims stk elems w :
  snd (decodeValues dims (inArray input elems stk w)) <> Panicked OutOfFuel
  /\ (snd (decodeValues dims (inArray input elems stk w)) = Ok tt ->
      exists w', fst (decodeValues dims (inArray input elems stk w))
                 = inArray input [] stk w').
Proof.
  unfold decodeValues, bind at 1, write, modify. simpl.
  match goal with
  | |- context [mkState (mkDecoder input (InArray elems :: stk)) ?w0] =>
      change (mkState (mkDecoder input (InArray elems :: stk)) w0)
        with (inArray input elems stk w0);
      destruct (forMore_array_total (decodeValues_row dims) stk
                  (decodeValues_row_total dims stk) elems (NewIterator dims) w0)
        as [Hfuel Hok]
  end.
  unfold bind.
  destruct (forMore (decodeValues_row dims) (NewIterator dims) _)
    as [st1 [ti1|p1]]; simpl in *.
  - split; [discriminate|]. intros _. apply (Hok ti1 eq_refl).
  - split; [|discriminate].
    intros H. injection H as ->. apply Hfuel. reflexivity.
Qed.

(** Closes the side conditions of [object_total_intro]. *)
Ltac settle_total :=
  first [ discriminate
        | intros; discriminate
        | intros; eexists _, _; reflexivity
        | eauto ].

Lemma object_total_intro {L} (x : State * result L) st' r stk rest :
  x = (st', r) ->
  r <> Panicked OutOfFuel ->
  (forall l', r = Ok l' -> exists p' w', st' = inObject input p' rest stk w') ->
  snd x <> Panicked OutOfFuel
  /\ forall l', snd x = Ok l' ->
       exists p' w', fst x = inObject input p' rest stk w'.
Proof. intros -> Hr Hst. simpl. auto. Qed.

Lemma table_field_values_array stk ds elems p rest w :
  decodeTableFields_field (Some ds)
    (inObject input p (("values", JArray elems) :: rest) stk w)
  = ((decodeValues ds ;;; EndComposite) ;;; ret (Some ds))
      (inArray input elems (InObject None rest :: stk) w).
Proof. reflexivity. Qed.

Lemma decodeTableFields_field_total stk dims p m rest w :
  snd (decodeTableFields_field dims (inObject input p (m :: rest) stk w))
  <> Panicked OutOfFuel
  /\ forall dims',
       snd (decodeTableFields_field dims (inObject input p (m :: rest) stk w))
       = Ok dims' ->
       exists p' w',
         fst (decodeTableFields_field dims (inObject input p (m :: rest) stk w))
         = inObject input p' rest stk w'.
Proof.
  destruct m as [name v].
  destruct (String.eqb_spec name "dimensions") as [->|Hd].
  { destruct (decode_Dimensions v) as [dims'|] eqn:Hdec.
    - eapply object_total_intro;
        [apply table_field_dimensions, Hdec | settle_total..].
    - eapply object_total_intro;
        [ unfold decodeTableFields_field, bind at 1, DecodeName; simpl;
          unfold bind, Decode, bind, nextValue; simpl; rewrite Hdec;
          reflexivity
        | settle_total.. ]. }
  destruct (String.eqb_spec name "error") as [->|He].
  { eapply object_total_intro; [apply table_field_error|..];
      destruct v; settle_total. }
  destruct (String.eqb_spec name "values") as [->|Hv].
  { destruct dims as [ds|].
    - destruct v;
        try (eapply object_total_intro; [reflexivity | settle_total..]).
      rewrite table_field_values_array. unfold bind.
      destruct (decodeValues_total ds (InObject None rest :: stk) elems w)
        as [Hfuel Hok].
      destruct (decodeValues ds _) as [st1 [[]|p1]]; simpl in *.
      + destruct (Hok eq_refl) as (w' & ->). simpl.
        split; [discriminate|]. intros _ _. eexists _, _. reflexivity.
      + split; [|discriminate].
        intros H. injection H as ->. apply Hfuel. reflexivity.
    - eapply object_total_intro;
        [apply table_field_values_nil | settle_total..]. }
  eapply object_total_intro;
    [apply table_field_unrecognized; assumption | settle_total..].
Qed.

Lemma decodeTableFields_total stk members p w :
  snd (decodeTableFields (inObject input p members stk w)) <> Panicked OutOfFuel
  /\ (snd (decodeTableFields (inObject input p members stk w)) = Ok tt ->
      exists p' w',
        fst (decodeTableFields (inObject input p members stk w))
        = inObject input p' [] stk w').
Proof.
  unfold decodeTableFields, bind.
  destruct (forMore_object_total decodeTableFields_field stk
              (decodeTableFields_field_total stk) members None p w)
    as [Hfuel Hok].
  destruct (forMore decodeTableFields_field None _) as [st1 [d1|p1]];
    simpl in *.
  - split; [discriminate|]. intros _. apply (Hok d1 eq_refl).
  - split; [|discriminate].
    intros H. injection H as ->. apply Hfuel. reflexivity.
Qed.

Lemma decodeDataFields_total stk members p w :
  snd (decodeDataFields (inObject input p members stk w)) <> Panicked OutOfFuel
  /\ forall u,
       snd (decodeDataFields (inObject input p members stk w)) = Ok u ->
       exists p' rest' w',
         fst (decodeDataFields (inObject input p members stk w))
         = inObject input p' rest' stk w'.
Proof.
  assert (forall (x : State * result unit) st' r,
            x = (st', r) -> r <> Panicked OutOfFuel ->
            (forall u, r = Ok u ->
               exists p' rest' w', st' = inObject input p' rest' stk w') ->
            snd x <> Panicked OutOfFuel
            /\ forall u, snd x = Ok u ->
                 exists p' rest' w', fst x = inObject input p' rest' stk w')
    as Hintro by (intros x st' r -> Hr Hst; simpl; auto).
  destruct members as [|[name v] r1];
    [eapply Hintro; [reflexivity | settle_total..]|].
  destruct (String.eqb_spec name "dataset") as [->|Hn];
    [|eapply Hintro;
      [apply decodeDataFields_not_dataset, Hn | settle_total..]].
  destruct v as [| | | |elems|dataset];
    try (eapply Hintro; [reflexivity | settle_total..]).
  destruct dataset as [|[name2 v2] r2];
    [eapply Hintro; [reflexivity | settle_total..]|].
  destruct (String.eqb_spec name2 "table") as [->|Hn2];
    [|eapply Hintro;
      [apply decodeDataFields_not_table, Hn2 | settle_total..]].
  destruct v2 as [| | | |elems|tableMembers];
    try (eapply Hintro;
         [reflexivity
         | try discriminate; intros; eexists _, _, _; reflexivity ..]).
  rewrite decodeDataFields_table. unfold bind.
  destruct (decodeTableFields_total (InObject None r2 :: InObject None r1 :: stk)
              tableMembers None w) as [Hfuel Hok].
  destruct (decodeTableFields _) as [st1 [[]|p1]]; simpl in *.
  - destruct (Hok eq_refl) as (p' & w' & ->). simpl.
    split; [discriminate|]. intros _ _. eexists _, _, _. reflexivity.
  - split; [exact Hfuel | discriminate].
Qed.

Lemma graphqlJSONToCSV_field_total stk u p m rest w :
  snd (graphqlJSONToCSV_field u (inObject input p (m :: rest) stk w))
  <> Panicked OutOfFuel
  /\ forall u',
       snd (graphqlJSONToCSV_field u (inObject input p (m :: rest) stk w))
       = Ok u' ->
       exists p' w',
         fst (graphqlJSONToCSV_field u (inObject input p (m :: rest) stk w))
         = inObject input p' rest stk w'.
Proof.
  destruct u. destruct m as [name v].
  destruct (String.eqb_spec name "data") as [->|Hd].
  { destruct v as [| | | |elems|members];
      try (eapply object_total_intro; [reflexivity | settle_total..]).
    rewrite field_data. unfold bind.
    destruct (decodeDataFields_total (InObject None rest :: stk) members None w)
      as [Hfuel Hok].
    destruct (decodeDataFields _) as [st1 [[]|p1]]; simpl in *.
    - destruct (Hok tt eq_refl) as (p' & rest' & w' & ->). simpl.
      split; [discriminate|]. intros _ _. eexists _, _. reflexivity.
    - split; [exact Hfuel | discriminate]. }
  destruct (String.eqb_spec name "errors") as [->|He].
  { unfold graphqlJSONToCSV_field, bind at 1, DecodeName. simpl.
    unfold decodeErrorsPanicIfAny, bind, Decode, bind, nextValue. simpl.
    destruct (decode_graphqlErrs v) as [errs|]; simpl;
      [|split; [discriminate | intros; discriminate]].
    destruct (0 <? String.length (joinMessages errs))%nat; simpl;
      split; try discriminate; try (intros; discriminate).
    intros _ _. eexists _, _. reflexivity. }
  eapply object_total_intro;
    [apply field_unrecognized; assumption | settle_total..].
Qed.

End Totality.

(** [graphqlJSONToCSV] terminates within the bound of its loops on every
    document: the outcome [OutOfFuel] does not occur. *)
Lemma graphqlJSONToCSV_total (r : json) : snd (run r) <> Panicked OutOfFuel.
Proof.
  destruct r as [| | | |elems|members];
    try (unfold run, graphqlJSONToCSV, bind, StartObjectComposite; simpl;
         discriminate).
  rewrite run_object. unfold bind.
  destruct (forMore_object_total None graphqlJSONToCSV_field []
              (graphqlJSONToCSV_field_total None []) members tt None [])
    as [Hfuel Hok].
  destruct (forMore graphqlJSONToCSV_field tt _) as [st1 [[]|p1]]; simpl in *.
  - destruct (Hok tt eq_refl) as (p' & w' & ->). discriminate.
  - exact Hfuel.
Qed.

(** ** The count as radix *)

Lemma odometer_step_length counts indices :
  length counts = length indices ->
  length (snd (odometer_step counts indices)) = length indices.
Proof.
  revert indices; induction counts as [|c cs IH]; intros [|x xs] Hlen;
    simpl in *; try discriminate; [reflexivity|].
  specialize (IH xs ltac:(lia)).
  destruct (odometer_step cs xs) as [[|] xs']; simpl in *.
  - destruct (x + 1 <? c); simpl; lia.
  - lia.
Qed.

(** On indices that are not negative a count below one acts as one. *)
Lemma odometer_step_clamp counts indices :
  Forall (fun k => 0 <= k) indices ->
  odometer_step counts indices = odometer_step (Z.max 1 <$> counts) indices.
Proof.
  intros Hnn. revert counts.
  induction Hnn as [|x xs Hx _ IH]; intros [|c cs]; try reflexivity.
  rewrite fmap_cons. cbn [odometer_step]. rewrite <- (IH cs).
  destruct (odometer_step cs xs) as [[|] xs']; [|reflexivity].
  replace (x + 1 <? Z.max 1 c) with (x + 1 <? c); [reflexivity|].
  destruct (Z.ltb_spec (x + 1) c), (Z.ltb_spec (x + 1) (Z.max 1 c));
    try reflexivity; lia.
Qed.

Section Radix.

Variable t : Table.
Hypothesis t_enough : Forall enough_categories (tbl_Dimensions t).

Lemma radixes_pos : Forall (fun c => 0 < c) (radixes t).
Proof.
  unfold radixes. apply Forall_fmap, Forall_forall.
  intros d _. unfold compose, radix. lia.
Qed.

Lemma radixes_clamp : radixes t = Z.max 1 <$> (dim_Count <$> tbl_Dimensions t).
Proof. unfold radixes. rewrite <- list_fmap_compose. reflexivity. Qed.

Lemma indices_by_radix_valid i : valid_indices (radixes t) (indices_by_radix t i).
Proof.
  apply digits_valid; [apply radixes_pos|].
  apply mod_product_range, radixes_pos.
Qed.

Lemma indices_by_radix_in_range i :
  Forall2 (fun d k => 0 <= k < Z.of_nat (length (dim_Categories d)))
    (tbl_Dimensions t) (indices_by_radix t i).
Proof.
  pose proof (indices_by_radix_valid i) as Hv.
  unfold valid_indices, radixes in Hv. apply Forall2_fmap_l in Hv.
  revert t_enough. induction Hv as [|d k ds ks Hk _ IH]; intros He;
    constructor.
  - apply Forall_cons_1 in He as [He _]. unfold enough_categories in He.
    unfold compose in Hk. lia.
  - apply IH. apply Forall_cons_1 in He as [_ He]. exact He.
Qed.

Lemma populateRow_by_radix row i v :
  length (row_Categories row) = length (tbl_Dimensions t) ->
  tbl_Values t !! i = Some v ->
  populateRow t row (indices_by_radix t i) i = Ok (row_by_radix t i).
Proof.
  intros Hrow Hv. unfold populateRow.
  pose proof (populateRow_range_spec t (indices_by_radix t i) []
                (tbl_Dimensions t) [] (row_Categories row)) as H.
  simpl in H. rewrite H; clear H; auto using indices_by_radix_in_range.
  simpl. unfold at_, row_by_radix. rewrite Hv. reflexivity.
Qed.

Lemma carry_by_radix i :
  carry (dim_Count <$> tbl_Dimensions t) (indices_by_radix t i)
    (length (indices_by_radix t i))
  = Ok (indices_by_radix t (S i)).
Proof.
  pose proof radixes_pos as Hpos. pose proof (product_pos _ Hpos) as HP.
  rewrite carry_odometer_step
    by (unfold indices_by_radix, radixes;
        rewrite digits_length, !length_fmap; reflexivity).
  rewrite odometer_step_clamp.
  - rewrite <- radixes_clamp. unfold indices_by_radix.
    rewrite odometer_step_digits by (auto using mod_product_range).
    simpl. rewrite Z.add_mod_idemp_l by lia.
    rewrite Nat2Z.inj_succ. reflexivity.
  - pose proof (indices_by_radix_valid i) as Hv.
    apply Forall2_Forall_r with (P := fun c k => 0 <= k < c) (l := radixes t);
      [exact Hv|].
    apply Forall_forall. intros c _ k Hk. lia.
Qed.

Lemma ForEachRow_range_by_radix {Σ} (cb : list Z -> Row -> Σ -> Σ) m :
  forall i row s,
    length (row_Categories row) = length (tbl_Dimensions t) ->
    (i + m <= length (tbl_Values t))%nat ->
    ForEachRow_range t cb (dim_Count <$> tbl_Dimensions t) (seq i m)
      row (indices_by_radix t i) s
    = (fold_left (fun s i => cb (indices_by_radix t i) (row_by_radix t i) s)
         (seq i m) s, Ok tt).
Proof.
  induction m as [|m IH]; intros i row s Hrow Hlen; [reflexivity|].
  destruct (lookup_lt_is_Some_2 (tbl_Values t) i) as [v Hv]; [lia|].
  simpl seq. simpl ForEachRow_range. unfold bind at 1. unfold lift at 1.
  rewrite (populateRow_by_radix row i v) by assumption.
  unfold bind at 1. unfold modify at 1.
  unfold bind at 1. unfold lift at 1.
  rewrite carry_by_radix.
  rewrite IH; [reflexivity| |lia].
  simpl. apply categories_at_length. unfold indices_by_radix, radixes.
  rewrite digits_length, length_fmap. reflexivity.
Qed.

Lemma ForEachRow_by_radix {Σ} (cb : Row -> Σ -> Σ) s :
  tbl_Error t = "" ->
  ForEachRow t cb s
  = (fold_left (fun s i => cb (row_by_radix t i) s)
       (seq 0 (length (tbl_Values t))) s, Ok tt).
Proof.
  intros He. unfold ForEachRow, ForEachRow_ghost. rewrite He. simpl negb.
  cbv iota.
  pose proof (ForEachRow_range_by_radix (fun _ => cb)
                (length (tbl_Values t)) 0%nat) as H.
  unfold indices_by_radix at 1 in H. simpl Z.of_nat in H.
  rewrite Zmod_0_l, digits_zero in H. unfold radixes in H.
  rewrite length_fmap in H.
  apply H; [|lia]. simpl. apply length_replicate.
Qed.

End Radix.

Lemma populated_enough d : populated d -> enough_categories d.
Proof. intros [Hpos Heq]. unfold enough_categories, radix. lia. Qed.

Lemma populated_radixes t :
  Forall populated (tbl_Dimensions t) ->
  radixes t = dim_Count <$> tbl_Dimensions t.
Proof.
  intros Hp. unfold radixes. apply list_fmap_ext.
  intros i d Hd. unfold radix.
  rewrite Forall_forall in Hp.
  destruct (Hp d) as [Hpos _]; [eapply list_elem_of_lookup_2, Hd|]. lia.
Qed.

(** ** Table objects without cell values, and members passed over *)

(** ** [ForEachRow] on any table *)

(** Whatever the table holds, [populateRow] either fills the row with the
    categories at the indices or panics on an index out of range. *)
Lemma populateRow_range_any t indices :
  forall dpre dsuf rpre rsuf,
    tbl_Dimensions t = dpre ++ dsuf ->
    length rpre = length dpre -> length rsuf = length dsuf ->
    length indices = length dsuf ->
    populateRow_range t (rpre ++ rsuf) (length dpre) indices
    = Ok (rpre ++ categories_at dsuf indices)
    \/ populateRow_range t (rpre ++ rsuf) (length dpre) indices
       = Panicked IndexOutOfRange.
Proof.
  induction indices as [|k rest IH]; intros dpre dsuf rpre rsuf Hd Hr Hs Hi.
  - destruct dsuf; [|discriminate]. destruct rsuf; [|discriminate].
    left. reflexivity.
  - destruct dsuf as [|d dsuf]; [discriminate|].
    destruct rsuf as [|r rsuf]; [discriminate|].
    simpl populateRow_range. rewrite Hd, at_middle. simpl rbind.
    unfold index. destruct (k <? 0); [right; reflexivity|].
    destruct (dim_Categories d !! Z.to_nat k) as [c|] eqn:Hc;
      [|right; reflexivity].
    simpl rbind. rewrite <- Hr, at_middle. simpl rbind.
    rewrite insert_middle.
    replace (rpre ++ _ :: rsuf) with ((rpre ++ [c]) ++ rsuf)
      by (rewrite <- app_assoc; destruct c; reflexivity).
    replace (S (length rpre)) with (length (dpre ++ [d]))
      by (rewrite length_app; simpl; lia).
    assert (rpre ++ categories_at (d :: dsuf) (k :: rest)
            = (rpre ++ [c]) ++ categories_at dsuf rest) as ->.
    { rewrite <- app_assoc. unfold categories_at. simpl. rewrite Hc.
      reflexivity. }
    apply (IH (dpre ++ [d]) dsuf (rpre ++ [c]) rsuf).
    + rewrite <- app_assoc. exact Hd.
    + rewrite !length_app. simpl. lia.
    + simpl in Hs. lia.
    + simpl in Hi. lia.
Qed.

Lemma indices_by_radix_length t i :
  length (indices_by_radix t i) = length (tbl_Dimensions t).
Proof.
  unfold indices_by_radix, radixes. rewrite digits_length, length_fmap.
  reflexivity.
Qed.

Lemma populateRow_any t row i v :
  length (row_Categories row) = length (tbl_Dimensions t) ->
  tbl_Values t !! i = Some v ->
  populateRow t row (indices_by_radix t i) i = Ok (row_by_radix t i)
  \/ populateRow t row (indices_by_radix t i) i = Panicked IndexOutOfRange.
Proof.
  intros Hrow Hv. unfold populateRow.
  destruct (populateRow_range_any t (indices_by_radix t i) []
              (tbl_Dimensions t) [] (row_Categories row) eq_refl eq_refl
              Hrow (indices_by_radix_length t i)) as [H|H];
    simpl in H; rewrite H; [left|right; reflexivity].
  simpl. unfold at_, row_by_radix. rewrite Hv. reflexivity.
Qed.

(** The loop calls back on the cells in turn, until the values are
    exhausted or a row cannot be filled. *)
Lemma ForEachRow_range_any {Σ} t (cb : list Z -> Row -> Σ -> Σ) m :
  forall i row s,
    length (row_Categories row) = length (tbl_Dimensions t) ->
    (i + m <= length (tbl_Values t))%nat ->
    exists k,
      (k <= m)%nat
      /\ ForEachRow_range t cb (dim_Count <$> tbl_Dimensions t) (seq i m)
           row (indices_by_radix t i) s
         = (fold_left (fun s i => cb (indices_by_radix t i) (row_by_radix t i) s)
              (seq i k) s,
            if (k =? m)%nat then Ok tt else Panicked IndexOutOfRange).
Proof.
  induction m as [|m IH]; intros i row s Hrow Hlen.
  - exists 0%nat. split; [lia|reflexivity].
  - destruct (lookup_lt_is_Some_2 (tbl_Values t) i) as [v Hv]; [lia|].
    simpl seq. simpl ForEachRow_range. unfold bind at 1. unfold lift at 1.
    destruct (populateRow_any t row i v Hrow Hv) as [-> | ->].
    + unfold bind at 1. unfold modify at 1.
      unfold bind at 1. unfold lift at 1.
      rewrite carry_by_radix.
      destruct (IH (S i) (row_by_radix t i)
                  (cb (indices_by_radix t i) (row_by_radix t i) s))
        as (k & Hk & ->).
      * simpl. apply categories_at_length.
        rewrite indices_by_radix_length. reflexivity.
      * lia.
      * exists (S k). split; [lia|]. reflexivity.
    + exists 0%nat. split; [lia|reflexivity].
Qed.

Lemma ForEachRow_any {Σ} t (cb : Row -> Σ -> Σ) s :
  tbl_Error t = "" ->
  exists k,
    (k <= length (tbl_Values t))%nat
    /\ ForEachRow t cb s
       = (fold_left (fun s i => cb (row_by_radix t i) s) (seq 0 k) s,
          if (k =? length (tbl_Values t))%nat
          then Ok tt else Panicked IndexOutOfRange).
Proof.
  intros He. unfold ForEachRow, ForEachRow_ghost. rewrite He. simpl negb.
  cbv iota.
  pose proof (ForEachRow_range_any t (fun _ => cb)
                (length (tbl_Values t)) 0%nat) as H.
  unfold indices_by_radix at 1 in H. simpl Z.of_nat in H.
  rewrite Zmod_0_l, digits_zero in H. unfold radixes in H.
  rewrite length_fmap in H.
  apply H; [|lia]. simpl. apply length_replicate.
Qed.

Lemma fold_writeRow_records {A} (f : A -> Row) l : forall w,
  fold_left (fun s i => writeRow (f i) s) l w
  = w ++ ((fun i => (cat_Label <$> row_Categories (f i))
                     ++ [Itoa (row_Count (f i))]) <$> l).
Proof.
  induction l as [|x l IH]; intros w.
  - simpl. rewrite app_nil_r. reflexivity.
  - rewrite fmap_cons. cbn [fold_left]. rewrite IH. unfold writeRow, Write.
    rewrite <- app_assoc. reflexivity.
Qed.

(** What the in-memory program writes for any decoded table: the header,
    then the records of the first [k] cells. *)
Lemma main_simple_any t :
  exists k,
    (k <= length (tbl_Values t))%nat
    /\ main_simple (mkResponse t []) []
       = (Header t
            :: ((fun i => (cat_Label <$> row_Categories (row_by_radix t i))
                          ++ [Itoa (row_Count (row_by_radix t i))])
                  <$> seq 0 k),
          if negb (String.eqb (tbl_Error t) "")
          then Panicked (PanicString (tbl_Error t))
          else if (k =? length (tbl_Values t))%nat
               then Ok tt else Panicked IndexOutOfRange).
Proof.
  unfold main_simple. simpl. unfold bind, modify.
  destruct (String.eqb_spec (tbl_Error t) "") as [He|He].
  - destruct (ForEachRow_any t writeRow (Write (Header t) []) He)
      as (k & Hk & ->).
    exists k. split; [exact Hk|].
    rewrite fold_writeRow_records. reflexivity.
  - exists 0%nat. split; [lia|].
    rewrite ForEachRow_error by exact He. reflexivity.
Qed.

Section TableMembers.

Variable input : option json.
Variable stk : list frame.

Lemma loop_passed_over pre rest :
  Forall passed_over pre ->
  forall dims p w,
    exists p',
      forMore decodeTableFields_field dims
        (inObject input p (pre ++ rest) stk w)
      = forMore decodeTableFields_field dims (inObject input p' rest stk w).
Proof.
  induction 1 as [|[name v] pre (Hd & Hv & He) _ IH]; intros dims p w;
    simpl app; [eauto|].
  destruct (String.eqb_spec name "error") as [->|Hne].
  - simpl in He. rewrite (He eq_refl).
    erewrite forMore_step by (apply (table_field_error input stk dims JNull)).
    apply IH.
  - erewrite forMore_step by (apply table_field_unrecognized; assumption).
    apply IH.
Qed.

Lemma loop_without_values members :
  Forall without_values members ->
  forall dims p w,
    exists p' dims',
      forMore decodeTableFields_field dims (inObject input p members stk w)
      = (inObject input p' [] stk w, Ok dims').
Proof.
  induction 1 as [|[name v] members (Hv & He & Hd) _ IH]; intros dims p w.
  - rewrite forMore_nil. eauto.
  - destruct (String.eqb_spec name "dimensions") as [->|Hnd].
    { destruct (Hd eq_refl) as [dims' Hdims'].
      erewrite forMore_step by (apply table_field_dimensions, Hdims').
      apply IH. }
    destruct (String.eqb_spec name "error") as [->|Hne].
    { simpl in He. rewrite (He eq_refl).
      erewrite forMore_step
        by (apply (table_field_error input stk dims JNull)).
      apply IH. }
    erewrite forMore_step by (apply table_field_unrecognized; assumption).
    apply IH.
Qed.

(** [values] with the value [null]: fatal while [dims] is [nil], passed over
    once it is not. *)
Lemma table_field_values_null ds p rest w :
  decodeTableFields_field (Some ds)
    (inObject input p (("values", JNull) :: rest) stk w)
  = (inObject input (Some JNull) rest stk w, Ok (Some ds)).
Proof. reflexivity. Qed.

(** [values] with an empty array: the header and nothing else. *)
Lemma table_field_values_empty ds p rest w :
  decodeTableFields_field (Some ds)
    (inObject input p (("values", JArray []) :: rest) stk w)
  = (inObject input None rest stk (w ++ [csv_header ds]), Ok (Some ds)).
Proof. reflexivity. Qed.

End TableMembers.

(** ** Whole responses *)

Lemma run_envelope_returns tableMembers r2 r1 r0 p' w' dims :
  forMore decodeTableFields_field None (inTable tableMembers r2 r1 r0 [])
  = (inObject None p' []
       [InObject None r2; InObject None r1; InObject None r0] w', Ok dims) ->
  run (jEnvelope tableMembers r2 r1 r0)
  = (forMore graphqlJSONToCSV_field tt ;;; EndComposite)
      (inObject None None r0 [] w').
Proof.
  intros H. unfold inTable in H. unfold jEnvelope. rewrite run_object.
  unfold bind at 1. rewrite forMore_cons. unfold bind at 1.
  rewrite field_data. unfold bind at 1.
  rewrite decodeDataFields_table. unfold bind at 1. unfold bind at 1.
  unfold decodeTableFields. unfold bind at 1. rewrite H.
  reflexivity.
Qed.

Lemma run_data_null rest :
  run (JObject (("data", JNull) :: rest)) = run (JObject rest).
Proof.
  rewrite !run_object. unfold bind at 1.
  erewrite forMore_step by reflexivity.
  apply (top_loop_pending None [] (Some JNull) None rest []).
Qed.

Lemma run_table_null r2 r1 r0 :
  run (JObject
         (("data",
           JObject (("dataset", JObject (("table", JNull) :: r2)) :: r1))
            :: r0))
  = run (JObject r0).
Proof.
  rewrite !run_object. unfold bind at 1.
  erewrite forMore_step by reflexivity.
  reflexivity.
Qed.

Lemma run_dataset_null r1 r0 :
  run (JObject (("data", JObject (("dataset", JNull) :: r1)) :: r0))
  = (inObject None (Some JNull) r1 [InObject None r0] [],
     Panicked (PanicString
                 ("dataset object expected but " +:+ dquote +:+ "null"
                  +:+ dquote +:+ " found"))).
Proof. reflexivity. Qed.

(** ** Values that are not numbers *)

Section BadValue.

Variable dims : list Dimension.
Hypothesis dims_populated : Forall populated dims.

Local Abbreviation counts := (dim_Count <$> dims) (only parsing).




End BadValue.

(** ** The string builder of [decodeErrorsPanicIfAny] *)

Lemma append_assoc (a b c : string) : (a +:+ b) +:+ c = a +:+ (b +:+ c).
Proof.
  induction a as [|x a IH]; [reflexivity|].
  change (String x ((a +:+ b) +:+ c) = String x (a +:+ (b +:+ c))).
  f_equal. exact IH.
Qed.

Lemma append_nonempty (a b : string) : a <> "" -> a +:+ b <> "".
Proof. destruct a; [congruence | discriminate]. Qed.

Lemma length_pos_false (s : string) : (0 <? String.length s)%nat = false -> s = "".
Proof. destruct s; [reflexivity | discriminate]. Qed.

Local Abbreviation join_step :=
  (fun sb err =>
     (if (0 <? String.length sb)%nat then sb +:+ newline else sb)
     +:+ err_Message err).

Lemma join_from_nonempty errs : forall sb,
  sb <> "" ->
  fold_left join_step errs sb
  = String.concat newline (sb :: (err_Message <$> errs)).
Proof.
  induction errs as [|e errs IH]; intros sb Hsb; [reflexivity|].
  cbn [fold_left]. rewrite (nonempty_length_pos _ Hsb).
  rewrite IH by (apply append_nonempty, append_nonempty, Hsb).
  rewrite fmap_cons.
  change (String.concat newline (sb :: err_Message e :: (err_Message <$> errs)))
    with (sb +:+ newline
          +:+ String.concat newline (err_Message e :: (err_Message <$> errs))).
  destruct (err_Message <$> errs) as [|m ms].
  - simpl. apply append_assoc.
  - change (String.concat newline (?x :: m :: ms))
      with (x +:+ newline +:+ String.concat newline (m :: ms)).
    rewrite !append_assoc. reflexivity.
Qed.

Lemma join_nonempty_stays errs : forall sb,
  sb <> "" -> fold_left join_step errs sb <> "".
Proof.
  induction errs as [|e errs IH]; intros sb Hsb; [exact Hsb|].
  cbn [fold_left]. apply IH. rewrite (nonempty_length_pos _ Hsb).
  apply append_nonempty, append_nonempty, Hsb.
Qed.

Lemma joinMessages_skip_empty e errs :
  err_Message e = "" -> joinMessages (e :: errs) = joinMessages errs.
Proof. intros He. unfold joinMessages. cbn [fold_left]. rewrite He. reflexivity. Qed.

Lemma joinMessages_concat e errs :
  err_Message e <> "" ->
  joinMessages (e :: errs)
  = String.concat newline (err_Message <$> (e :: errs)).
Proof.
  intros He. unfold joinMessages. cbn [fold_left]. simpl String.length.
  cbn iota. change ("" +:+ err_Message e) with (err_Message e).
  apply join_from_nonempty, He.
Qed.

Lemma joinMessages_empty_iff errs :
  joinMessages errs = "" <-> Forall (fun e => err_Message e = "") errs.
Proof.
  induction errs as [|e errs IH]; [split; [constructor | reflexivity]|].
  destruct (String.eqb_spec (err_Message e) "") as [He|He].
  - rewrite joinMessages_skip_empty by exact He. rewrite IH. split.
    + intros H. constructor; assumption.
    + intros H. apply Forall_cons_1 in H as [_ H]. exact H.
  - split.
    + intros H. exfalso. revert H. unfold joinMessages. cbn [fold_left].
      apply join_nonempty_stays. simpl. exact He.
    + intros H. apply Forall_cons_1 in H as [H _]. contradiction.
Qed.

(** * The JavaScript example against the Go program *)

#[local] Set Warnings "-clear-no-such-hyp".

Lemma carry_while_carry cs n : forall xs r,
  carry cs xs n = Ok r -> JS.carry_while cs xs n = r.
Proof.
  induction n as [|j IH]; intros xs r H; simpl in *.
  - injection H as ->. reflexivity.
  - unfold at_ in H. destruct (xs !! j) as [x|]; [|discriminate].
    simpl in H. destruct (cs !! j) as [c|]; [|discriminate]. simpl in H.
    destruct (x + 1 <? c).
    + injection H as ->. reflexivity.
    + apply IH, H.
Qed.

Lemma js_assign_app obj l1 l2 :
  js_assign obj (l1 ++ l2) = js_assign (js_assign obj l1) l2.
Proof. apply fold_left_app. Qed.

Lemma js_assign_untouched columns : forall obj k,
  k ∉ columns.*1 -> js_assign obj columns !! k = obj !! k.
Proof.
  induction columns as [|[k0 v0] l IH]; intros obj k Hk; [reflexivity|].
  rewrite fmap_cons, not_elem_of_cons in Hk. destruct Hk as [Hne Hk].
  simpl. change (js_assign (<[k0 := v0]> obj) l !! k = obj !! k).
  rewrite IH by exact Hk. apply lookup_insert_ne. simpl in Hne. congruence.
Qed.

Lemma js_assign_last l1 l2 obj k v :
  k ∉ l2.*1 -> js_assign obj (l1 ++ (k, v) :: l2) !! k = Some v.
Proof.
  intros Hk. rewrite js_assign_app. simpl.
  change (js_assign (<[k := v]> (js_assign obj l1)) l2 !! k = Some v).
  rewrite js_assign_untouched by exact Hk. apply lookup_insert_eq.
Qed.

Lemma js_assign_dom columns : forall obj,
  dom (js_assign obj columns) = dom obj ∪ list_to_set columns.*1.
Proof.
  induction columns as [|[k0 v0] l IH]; intros obj.
  - simpl. set_solver.
  - change (dom (js_assign (<[k0 := v0]> obj) l)
            = dom obj ∪ list_to_set ((k0, v0) :: l).*1).
    rewrite IH, dom_insert_L, fmap_cons. simpl. set_solver.
Qed.

Lemma js_columns_names dims : forall cats,
  length cats = length dims ->
  (js_columns dims cats).*1 = (fun d => var_Label (dim_Variable d)) <$> dims.
Proof.
  induction dims as [|d ds IH]; intros [|c cs] H; try discriminate;
    [reflexivity|].
  unfold js_columns. simpl. f_equal. apply IH. simpl in H. lia.
Qed.

Lemma js_columns_split dims cats j d c :
  length cats = length dims ->
  dims !! j = Some d -> cats !! j = Some c ->
  js_columns dims cats
  = js_columns (take j dims) (take j cats)
    ++ (var_Label (dim_Variable d), JS.String_ (cat_Label c))
    :: js_columns (drop (S j) dims) (drop (S j) cats).
Proof.
  revert cats j. induction dims as [|d0 ds IH]; intros [|c0 cs] j Hl Hd Hc;
    try discriminate.
  destruct j as [|j]; simpl in *.
  - injection Hd as ->. injection Hc as ->. reflexivity.
  - unfold js_columns in *. simpl. f_equal. apply IH; auto.
Qed.

(** The keys of the object are the columns of [Header], as a set. *)
Lemma js_row_dom t row :
  length (row_Categories row) = length (tbl_Dimensions t) ->
  dom (js_row t row) = list_to_set (Header t).
Proof.
  intros Hl. unfold js_row, Header.
  rewrite dom_insert_L, js_assign_dom, js_columns_names by exact Hl.
  rewrite list_to_set_app_L. simpl. set_solver.
Qed.

Lemma js_row_count t row :
  js_row t row !! "count" = Some (JS.Number (row_Count row)).
Proof. apply lookup_insert_eq. Qed.

(** A dimension's column holds its category unless the name is assigned
    again, by a later dimension or by the count. *)
Lemma js_row_column t row j d c :
  length (row_Categories row) = length (tbl_Dimensions t) ->
  tbl_Dimensions t !! j = Some d -> row_Categories row !! j = Some c ->
  var_Label (dim_Variable d) <> "count" ->
  var_Label (dim_Variable d)
    ∉ (fun d => var_Label (dim_Variable d)) <$> drop (S j) (tbl_Dimensions t) ->
  js_row t row !! var_Label (dim_Variable d) = Some (JS.String_ (cat_Label c)).
Proof.
  intros Hl Hd Hc Hcount Hlater. unfold js_row.
  rewrite lookup_insert_ne by congruence.
  rewrite (js_columns_split _ _ j d c Hl Hd Hc).
  apply js_assign_last.
  rewrite js_columns_names by (rewrite !length_drop; lia).
  exact Hlater.
Qed.

Lemma list_to_set_size (l : list string) :
  (size (list_to_set l : gset string) <= length l)%nat
  /\ (size (list_to_set l : gset string) = length l -> NoDup l).
Proof.
  induction l as [|x l [IH1 IH2]].
  - rewrite list_to_set_nil, size_empty. split; [simpl; lia|constructor].
  - rewrite list_to_set_cons. cbn [length].
    destruct (decide (x ∈ l)) as [Hin|Hin].
    + assert ({[x]} ∪ list_to_set l = (list_to_set l : gset string)) as ->
        by set_solver.
      split; lia.
    + rewrite size_union by set_solver. rewrite size_singleton.
      split; [lia|]. intros H. constructor; [exact Hin|]. apply IH2. lia.
Qed.

Section JavaScript.

Variable t : Table.
Hypothesis t_enough : Forall enough_categories (tbl_Dimensions t).
Hypothesis t_plain : Forall plain_label (tbl_Dimensions t).

Lemma assign_plain obj d v :
  plain_label d ->
  JS.assign obj (var_Label (dim_Variable d)) v
  = <[var_Label (dim_Variable d) := v]> obj.
Proof.
  intros Hd. unfold JS.assign.
  destruct (String.eqb_spec (var_Label (dim_Variable d)) "__proto__");
    [contradiction|reflexivity].
Qed.

Lemma populateRow_forEach_spec indices : forall dpre dsuf obj,
  tbl_Dimensions t = dpre ++ dsuf ->
  Forall plain_label dsuf ->
  Forall2 (fun d k => 0 <= k < Z.of_nat (length (dim_Categories d)))
    dsuf indices ->
  JS.populateRow_forEach t obj (length dpre) indices
  = JS.Returns (js_assign obj (js_columns dsuf (categories_at dsuf indices))).
Proof.
  induction indices as [|k rest IH]; intros dpre dsuf obj Hd Hp Hv.
  - inversion Hv; subst. reflexivity.
  - inversion Hv as [|d k' dsuf' rest' Hk Hv']; subst.
    apply Forall_cons_1 in Hp as [Hpd Hp].
    simpl JS.populateRow_forEach.
    rewrite Hd, list_lookup_middle by reflexivity.
    destruct (index_in_range (dim_Categories d) k Hk) as (c & Hc & _).
    destruct (Z.ltb_spec k 0); [lia|]. rewrite Hc.
    rewrite assign_plain by exact Hpd.
    replace (S (length dpre)) with (length (dpre ++ [d]))
      by (rewrite length_app; simpl; lia).
    rewrite (IH (dpre ++ [d]) dsuf');
      [|rewrite <- app_assoc; exact Hd|exact Hp|exact Hv'].
    unfold js_columns, categories_at. simpl. rewrite Hc. reflexivity.
Qed.

Lemma js_populateRow_by_radix i v :
  tbl_Values t !! i = Some v ->
  JS.populateRow t (indices_by_radix t i) i
  = JS.Returns (js_row t (row_by_radix t i)).
Proof.
  intros Hv. unfold JS.populateRow.
  pose proof (populateRow_forEach_spec (indices_by_radix t i) []
                (tbl_Dimensions t) ∅ eq_refl t_plain
                (indices_by_radix_in_range t t_enough i)) as H.
  simpl in H. rewrite H, Hv. unfold js_row, row_by_radix. simpl.
  rewrite Hv. reflexivity.
Qed.

Lemma processCounts_for_by_radix m : forall i result,
  (i + m <= length (tbl_Values t))%nat ->
  JS.processCounts_for t (dim_Count <$> tbl_Dimensions t) (seq i m)
    (indices_by_radix t i) result
  = JS.Returns (result ++ ((fun i => js_row t (row_by_radix t i)) <$> seq i m)).
Proof.
  induction m as [|m IH]; intros i result Hlen.
  - simpl. rewrite app_nil_r. reflexivity.
  - destruct (lookup_lt_is_Some_2 (tbl_Values t) i) as [v Hv]; [lia|].
    simpl seq. simpl JS.processCounts_for.
    rewrite (js_populateRow_by_radix i v Hv).
    rewrite (carry_while_carry _ _ _ _ (carry_by_radix t i)).
    rewrite IH by lia. rewrite fmap_cons, <- app_assoc. reflexivity.
Qed.

Lemma processCounts_by_radix :
  JS.processCounts t
  = JS.Returns ((fun i => js_row t (row_by_radix t i))
                  <$> seq 0 (length (tbl_Values t))).
Proof.
  unfold JS.processCounts.
  pose proof (processCounts_for_by_radix (length (tbl_Values t)) 0%nat []
                ltac:(lia)) as H.
  unfold indices_by_radix at 1 in H. simpl Z.of_nat in H.
  rewrite Zmod_0_l, digits_zero in H. unfold radixes in H.
  rewrite length_fmap in H.
  replace ((fun _ => 0) <$> tbl_Dimensions t)
    with (replicate (length (tbl_Dimensions t)) 0); [exact H|].
  clear. induction (tbl_Dimensions t) as [|d l IH]; [reflexivity|].
  rewrite fmap_cons. cbn [length replicate]. f_equal. exact IH.
Qed.

Lemma row_by_radix_length i :
  length (row_Categories (row_by_radix t i)) = length (tbl_Dimensions t).
Proof.
  simpl. apply categories_at_length. unfold indices_by_radix, radixes.
  rewrite digits_length, length_fmap. reflexivity.
Qed.

End JavaScript.

(** ** A dimension without categories *)

Lemma populateRow_range_empty t : forall dsuf dpre,
  tbl_Dimensions t = dpre ++ dsuf ->
  Exists (fun d => dim_Categories d = []) dsuf ->
  forall rowCats,
  populateRow_range t rowCats (length dpre) (replicate (length dsuf) 0)
  = Panicked IndexOutOfRange.
Proof.
  induction dsuf as [|d dsuf IH]; intros dpre Hd He rowCats.
  - inversion He.
  - simpl. rewrite Hd, at_middle. simpl.
    destruct (dim_Categories d) as [|c cs] eqn:Hc.
    + reflexivity.
    + simpl. unfold at_. destruct (rowCats !! length dpre); [|reflexivity].
      simpl. apply Exists_cons in He as [He|He]; [congruence|].
      replace (S (length dpre)) with (length (dpre ++ [d]))
        by (rewrite length_app; simpl; lia).
      apply IH; [rewrite <- app_assoc; exact Hd|exact He].
Qed.

Lemma populateRow_forEach_empty t : forall dsuf dpre,
  tbl_Dimensions t = dpre ++ dsuf ->
  Exists (fun d => dim_Categories d = []) dsuf ->
  forall obj,
  JS.populateRow_forEach t obj (length dpre) (replicate (length dsuf) 0)
  = JS.ThrowsTypeError.
Proof.
  induction dsuf as [|d dsuf IH]; intros dpre Hd He obj.
  - inversion He.
  - simpl. rewrite Hd, list_lookup_middle by reflexivity.
    destruct (dim_Categories d) as [|c cs] eqn:Hc.
    + reflexivity.
    + simpl. apply Exists_cons in He as [He|He]; [congruence|].
      replace (S (length dpre)) with (length (dpre ++ [d]))
        by (rewrite length_app; simpl; lia).
      apply IH; [rewrite <- app_assoc; exact Hd|exact He].
Qed.

(** ** The keys of a row object, on any table *)

Lemma carry_while_length cs n : forall xs,
  length (JS.carry_while cs xs n) = length xs.
Proof.
  induction n as [|j IH]; intros xs; simpl; [reflexivity|].
  destruct (xs !! j) as [x|]; [|reflexivity].
  destruct (match cs !! j with Some c => x + 1 <? c | None => false end).
  - apply length_insert.
  - rewrite IH, !length_insert. reflexivity.
Qed.

Lemma assign_dom obj key v :
  dom (JS.assign obj key v) ⊆ dom obj ∪ {[key]}
  /\ (key <> "__proto__" -> dom (JS.assign obj key v) = dom obj ∪ {[key]}).
Proof.
  unfold JS.assign. destruct (String.eqb_spec key "__proto__") as [->|Hne].
  - split; [set_solver|congruence].
  - rewrite dom_insert_L. split; [set_solver|intros _; set_solver].
Qed.

Lemma populateRow_forEach_dom t indices : forall obj i o,
  JS.populateRow_forEach t obj i indices = JS.Returns o ->
  dom o ⊆ dom obj
          ∪ list_to_set ((fun d => var_Label (dim_Variable d))
                           <$> take (length indices) (drop i (tbl_Dimensions t)))
  /\ (Forall plain_label (tbl_Dimensions t) ->
      dom o = dom obj
              ∪ list_to_set ((fun d => var_Label (dim_Variable d))
                               <$> take (length indices)
                                     (drop i (tbl_Dimensions t)))).
Proof.
  induction indices as [|k rest IH]; intros obj i o H.
  - injection H as <-. simpl. split; [set_solver|intros _; set_solver].
  - simpl in H.
    destruct (tbl_Dimensions t !! i) as [d|] eqn:Hd; [|discriminate].
    destruct (if k <? 0 then None else dim_Categories d !! Z.to_nat k)
      as [c|]; [|discriminate].
    apply IH in H as [Hsub Heq].
    rewrite (drop_S _ _ _ Hd). cbn [length take]. rewrite fmap_cons.
    cbn [list_to_set].
    destruct (assign_dom obj (var_Label (dim_Variable d))
                (JS.String_ (cat_Label c))) as [Hasub Haeq].
    split.
    + set_solver.
    + intros Hplain. rewrite (Heq Hplain), Haeq; [set_solver|].
      rewrite Forall_forall in Hplain. apply Hplain.
      eapply list_elem_of_lookup_2, Hd.
Qed.

Lemma populateRow_dom t indices n o :
  length indices = length (tbl_Dimensions t) ->
  JS.populateRow t indices n = JS.Returns o ->
  dom o ⊆ list_to_set (Header t)
  /\ (Forall plain_label (tbl_Dimensions t) -> dom o = list_to_set (Header t)).
Proof.
  intros Hlen H. unfold JS.populateRow in H.
  destruct (JS.populateRow_forEach t ∅ 0 indices) as [obj|] eqn:Hobj;
    [|discriminate].
  injection H as <-.
  apply populateRow_forEach_dom in Hobj as [Hsub Heq].
  rewrite Hlen, drop_0, firstn_all in Hsub, Heq.
  change (JS.assign obj "count" ?v) with (<["count" := v]> obj).
  rewrite dom_insert_L. unfold Header. rewrite list_to_set_app_L.
  split.
  - set_solver.
  - intros Hplain. rewrite (Heq Hplain). set_solver.
Qed.

Lemma processCounts_for_rows t dimLengths rng : forall dimIndices result rows,
  JS.processCounts_for t dimLengths rng dimIndices result = JS.Returns rows ->
  forall o, o ∈ rows ->
    o ∈ result
    \/ exists indices n,
         length indices = length dimIndices
         /\ JS.populateRow t indices n = JS.Returns o.
Proof.
  induction rng as [|i rng IH]; intros dimIndices result rows H o Ho.
  - injection H as <-. left. exact Ho.
  - simpl in H.
    destruct (JS.populateRow t dimIndices i) as [row|] eqn:Hrow;
      [|discriminate].
    destruct (IH _ _ _ H o Ho) as [Hin|(indices & n & Hlen & Hpop)].
    + apply elem_of_app in Hin as [Hin|Hin]; [left; exact Hin|].
      apply list_elem_of_singleton in Hin as ->.
      right. exists dimIndices, i. split; [reflexivity|exact Hrow].
    + right. exists indices, n. split; [|exact Hpop].
      rewrite Hlen. apply carry_while_length.
Qed.

Lemma processCounts_rows t rows o :
  JS.processCounts t = JS.Returns rows -> o ∈ rows ->
  exists indices n,
    length indices = length (tbl_Dimensions t)
    /\ JS.populateRow t indices n = JS.Returns o.
Proof.
  intros H Ho. unfold JS.processCounts in H.
  destruct (processCounts_for_rows _ _ _ _ _ _ H o Ho)
    as [Hin|(indices & n & Hlen & Hpop)].
  - apply elem_of_nil in Hin. contradiction.
  - exists indices, n. split; [|exact Hpop].
    rewrite Hlen. apply length_fmap.
Qed.

(** * The order of the members and what has been written *)



Section MemberOrder.

Variable input : option json.
Variable stk : list frame.


(** *** [errors] whose messages are all empty *)



(** *** The table object up to its [values] member *)

(** What [decodeTableFields] has written once it is past a [values] member
    that follows non-nil dimensions [ds]: nothing for [null], the header for
    an empty array, and moreover one record per number when all elements
    are numbers. *)
Lemma table_field_values_written ds v values p rest w :
  v = JNull /\ values = None
  \/ (exists vs, v = jValues vs /\ values = Some vs
                 /\ (vs = [] \/ Forall populated ds)) ->
  exists p',
    decodeTableFields_field (Some ds)
      (inObject input p (("values", v) :: rest) stk w)
    = (inObject input p' rest stk
         (w ++ match values with
               | None => []
               | Some vs => csv_header ds :: csv_rows ds 0 vs
               end),
       Ok (Some ds)).
Proof.
  intros [[-> ->]|(vs & -> & -> & [->|Hp])].
  - exists (Some JNull). rewrite app_nil_r. reflexivity.
  - exists None. reflexivity.
  - exists None. apply table_field_values, Hp.
Qed.

Lemma loop_dimensions_values jd ds v values u0 u1 u2 rest :
  decode_Dimensions jd = Some (Some ds) ->
  Forall passed_over u0 -> Forall passed_over u1 -> Forall passed_over u2 ->
  v = JNull /\ values = None
  \/ (exists vs, v = jValues vs /\ values = Some vs
                 /\ (vs = [] \/ Forall populated ds)) ->
  forall p w,
    exists p',
      forMore decodeTableFields_field None
        (inObject input p
           (u0 ++ ("dimensions", jd) :: u1 ++ ("values", v) :: u2 ++ rest)
           stk w)
      = forMore decodeTableFields_field (Some ds)
          (inObject input p' rest stk
             (w ++ match values with
                   | None => []
                   | Some vs => csv_header ds :: csv_rows ds 0 vs
                   end)).
Proof.
  intros Hjd H0 H1 H2 Hv p w.
  destruct (loop_passed_over input stk u0
              (("dimensions", jd) :: u1 ++ ("values", v) :: u2 ++ rest)
              H0 None p w) as (p0 & ->).
  erewrite forMore_step by (apply table_field_dimensions, Hjd).
  destruct (loop_passed_over input stk u1 (("values", v) :: u2 ++ rest)
              H1 (Some ds) None w) as (p1 & ->).
  destruct (table_field_values_written ds v values p1 (u2 ++ rest) w Hv)
    as (p2 & Hstep).
  erewrite forMore_step by exact Hstep.
  apply loop_passed_over, H2.
Qed.

End MemberOrder.

(** Whole responses whose table object holds dimensions, then values. *)
Lemma run_dimensions_values_then jd ds v values u0 u1 u2 r2 r1 r0 :
  decode_Dimensions jd = Some (Some ds) ->
  Forall passed_over u0 -> Forall passed_over u1 -> Forall passed_over u2 ->
  v = JNull /\ values = None
  \/ (exists vs, v = jValues vs /\ values = Some vs
                 /\ (vs = [] \/ Forall populated ds)) ->
  run (jEnvelope (u0 ++ ("dimensions", jd) :: u1 ++ ("values", v) :: u2)
         r2 r1 r0)
  = (forMore graphqlJSONToCSV_field tt ;;; EndComposite)
      (inObject None None r0 []
         match values with
         | None => []
         | Some vs => csv_header ds :: csv_rows ds 0 vs
         end).
Proof.
  intros Hjd H0 H1 H2 Hv.
  destruct (loop_dimensions_values None
              [InObject None r2; InObject None r1; InObject None r0]
              jd ds v values u0 u1 u2 [] Hjd H0 H1 H2 Hv None [])
    as (p' & Hloop).
  rewrite app_nil_r in Hloop.
  apply (run_envelope_returns _ r2 r1 r0 p' _ (Some ds)).
  unfold inTable. rewrite Hloop. apply forMore_nil.
Qed.


(** * Decoding the response in memory *)

Lemma into_int_ok n cur : is_int n -> into_int (JNumber n) cur = Some n.
Proof.
  unfold is_int, into_int. intros [Hlo Hhi].
  destruct (Z.leb_spec (- 2 ^ 63) n); [|lia].
  destruct (Z.ltb_spec n (2 ^ 63)); [reflexivity|lia].
Qed.

Lemma into_elems_fmap {A T} (elem : json -> option T) (g : A -> json)
    (f : A -> T) l :
  Forall (fun x => elem (g x) = Some (f x)) l ->
  into_elems elem (g <$> l) = Some (f <$> l).
Proof.
  induction 1 as [|x l Hx _ IH]; [reflexivity|].
  rewrite !fmap_cons. cbn [into_elems]. rewrite Hx, IH. reflexivity.
Qed.

Lemma into_Category_json c :
  into_Category (jsonCategory c) zeroCategory = Some c.
Proof. destruct c. reflexivity. Qed.

Lemma into_Variable_json x cur : into_Variable (jsonVariable x) cur = Some x.
Proof. destruct x. reflexivity. Qed.

Lemma into_Categories_json cats cur :
  into_Categories (JArray (jsonCategory <$> cats)) cur = Some cats.
Proof.
  unfold into_Categories.
  rewrite (into_elems_fmap _ jsonCategory id).
  - rewrite list_fmap_id. reflexivity.
  - apply Forall_forall. intros c _. apply into_Category_json.
Qed.

Lemma into_Dimension_json d :
  is_int (dim_Count d) -> into_Dimension (jsonDimension d) = Some d.
Proof.
  intros Hc. destruct d as [count cats x]. simpl in Hc.
  unfold into_Dimension, jsonDimension. cbn [into_struct].
  change (fold_case "count") with "count".
  change (fold_case "variable") with "variable".
  change (fold_case "categories") with "categories".
  unfold Dimension_field at 1. cbn [String.eqb Ascii.eqb Bool.eqb].
  rewrite into_int_ok by exact Hc. cbn [mbind option_bind].
  unfold Dimension_field at 1. cbn [String.eqb Ascii.eqb Bool.eqb].
  cbn [dim_Variable dim_Count dim_Categories].
  rewrite into_Variable_json. cbn [mbind option_bind].
  unfold Dimension_field at 1. cbn [String.eqb Ascii.eqb Bool.eqb].
  cbn [dim_Variable dim_Count dim_Categories].
  rewrite into_Categories_json. reflexivity.
Qed.

Lemma into_Dimensions_json dims :
  Forall (fun d => is_int (dim_Count d)) dims ->
  into_Dimensions (jsonDimensions dims) = Some dims
  /\ decode_Dimensions (jsonDimensions dims) = Some (Some dims).
Proof.
  intros Hc.
  assert (into_elems into_Dimension (jsonDimension <$> dims) = Some dims) as H.
  { rewrite (into_elems_fmap _ jsonDimension id).
    - rewrite list_fmap_id. reflexivity.
    - eapply Forall_impl; [exact Hc|].
      intros d Hd. apply into_Dimension_json, Hd. }
  unfold into_Dimensions, decode_Dimensions, jsonDimensions.
  rewrite H. split; reflexivity.
Qed.

Lemma into_ints_json values :
  Forall is_int values -> into_ints (jValues values) = Some values.
Proof.
  intros Hv. unfold into_ints, jValues.
  rewrite (into_elems_fmap _ JNumber id).
  - rewrite list_fmap_id. reflexivity.
  - eapply Forall_impl; [exact Hv|].
    intros n Hn. apply into_int_ok, Hn.
Qed.

Lemma unrelated_passed_over m : unrelated m -> passed_over m.
Proof.
  destruct m as [k v]. unfold unrelated, passed_over. simpl.
  intros (Hd & Hv & He). repeat split.
  - intros ->. apply Hd. reflexivity.
  - intros ->. apply Hv. reflexivity.
  - intros ->. apply He. reflexivity.
Qed.

Lemma Table_field_unrelated k v t :
  unrelated (k, v) -> Table_field (fold_case k) v t = Some t.
Proof.
  unfold unrelated. simpl. intros (Hd & Hv & He). unfold Table_field.
  rewrite (eqb_other _ _ Hd), (eqb_other _ _ Hv).
  destruct (String.eqb_spec (fold_case k) "error") as [Heq|_].
  - rewrite (He Heq). destruct t. reflexivity.
  - reflexivity.
Qed.

Lemma into_struct_unrelated u rest : forall t,
  Forall unrelated u ->
  into_struct Table_field (u ++ rest) t = into_struct Table_field rest t.
Proof.
  intros t Hu. induction Hu as [|[k v] u Hm _ IH]; [reflexivity|].
  simpl app. cbn [into_struct]. rewrite (Table_field_unrelated k v t Hm).
  exact IH.
Qed.

Lemma decode_Response_table members :
  decode_Response (jResponse members)
  = t ← into_struct Table_field members (mkTable [] [] "");
    Some (mkResponse t []).
Proof.
  unfold decode_Response, jResponse, jEnvelope. cbn [into_struct].
  change (fold_case "data") with "data".
  unfold Response_field. cbn [String.eqb Ascii.eqb Bool.eqb].
  unfold into_Data. cbn [into_struct].
  change (fold_case "dataset") with "dataset".
  unfold Data_field. cbn [String.eqb Ascii.eqb Bool.eqb].
  unfold into_Dataset. cbn [into_struct].
  change (fold_case "table") with "table".
  unfold Dataset_field. cbn [String.eqb Ascii.eqb Bool.eqb].
  unfold into_Table. cbn [zeroResponse resp_Table resp_Errors].
  destruct (into_struct Table_field members (mkTable [] [] ""));
    reflexivity.
Qed.

(** The table the in-memory program decodes from a table object that holds
    the dimensions and then the values. *)
Lemma decode_Response_dimensions_values dims values u0 u1 u2 :
  Forall (fun d => is_int (dim_Count d)) dims ->
  Forall is_int values ->
  Forall unrelated u0 -> Forall unrelated u1 -> Forall unrelated u2 ->
  decode_Response
    (jResponse (u0 ++ ("dimensions", jsonDimensions dims)
                   :: u1 ++ ("values", jValues values) :: u2))
  = Some (mkResponse (mkTable dims values "") []).
Proof.
  intros Hc Hv H0 H1 H2. rewrite decode_Response_table.
  rewrite into_struct_unrelated by exact H0. cbn [into_struct].
  change (fold_case "dimensions") with "dimensions".
  unfold Table_field at 1. cbn [String.eqb Ascii.eqb Bool.eqb].
  rewrite (proj1 (into_Dimensions_json dims Hc)). cbn [mbind option_bind].
  rewrite into_struct_unrelated by exact H1. cbn [into_struct].
  change (fold_case "values") with "values".
  unfold Table_field at 1. cbn [String.eqb Ascii.eqb Bool.eqb].
  rewrite (into_ints_json values Hv). cbn [mbind option_bind].
  rewrite <- (app_nil_r u2), into_struct_unrelated by exact H2.
  reflexivity.
Qed.

(** ** Properties of the row iterator ([Table.ForEachRow]) *)

(** C1. On a table whose dimensions all have a positive count equal to the
    number of their categories, and whose value list has exactly
    [product counts] elements, [ForEachRow] invokes its callback on the
    index vectors of the row-major nested loop, in that order (the last
    dimension cycling fastest): the first vector is all zeros, each next one
    is the odometer step of its predecessor without a carry leaving the
    leftmost counter, no vector occurs twice, and every combination of
    per-dimension indices occurs.  The rows handed to the callback are the
    categories at those vectors paired with the values in order.  (The
    statement does not need the dimension list to be non-empty.) *)
Theorem C1_ForEachRow_visits_each_combination_once (t : Table) :
  Forall populated (tbl_Dimensions t) ->
  tbl_Error t = "" ->
  Z.of_nat (length (tbl_Values t)) = product (dim_Count <$> tbl_Dimensions t) ->
  let counts := dim_Count <$> tbl_Dimensions t in
  let visited := row_major_nested_loop counts in
  ForEachRow_ghost t (fun idx _ acc => acc ++ [idx]) [] = (visited, Ok tt)
  /\ NoDup visited
  /\ (forall v, v ∈ visited <-> valid_indices counts v)
  /\ visited !! 0%nat = Some (replicate (length counts) 0)
  /\ (forall i v v', visited !! i = Some v -> visited !! S i = Some v' ->
        odometer_step counts v = (false, v'))
  /\ (forall Σ (cb : Row -> Σ -> Σ) s,
        ForEachRow t cb s
        = (fold_left (fun s r => cb r s)
             (zip_with (fun idx v => mkRow (categories_at (tbl_Dimensions t) idx) v)
                visited (tbl_Values t)) s, Ok tt)).
Proof.
  intros Hp He Hlen counts visited. fold counts in Hlen.
  pose proof (populated_counts_pos _ Hp) as Hpos. fold counts in Hpos.
  pose proof (product_pos _ Hpos) as HP.
  assert (indices_at t <$> seq 0 (length (tbl_Values t)) = visited) as Htrace.
  { replace (length (tbl_Values t)) with (Z.to_nat (product counts)) by lia.
    apply indices_at_row_major, Hp. }
  assert (forall i v, visited !! i = Some v ->
            v = digits counts (Z.of_nat i) /\ Z.of_nat i < product counts) as Hnth.
  { intros i v. unfold visited. rewrite row_major_digits by assumption.
    rewrite list_lookup_fmap. intros Hv.
    destruct (seqZ 0 (product counts) !! i) as [n|] eqn:Hn; [|discriminate].
    apply lookup_seqZ in Hn as [-> Hi]. simpl in Hv.
    injection Hv as <-. rewrite Z.add_0_l. auto. }
  repeat split.
  - rewrite ForEachRow_ghost_spec by assumption.
    rewrite fold_left_snoc. simpl. rewrite Htrace. reflexivity.
  - apply row_major_NoDup, Hpos.
  - apply row_major_complete, Hpos.
  - apply row_major_complete, Hpos.
  - unfold visited. rewrite row_major_digits by assumption.
    rewrite list_lookup_fmap, lookup_seqZ_lt by lia. simpl.
    rewrite digits_zero. reflexivity.
  - intros i v v' Hv Hv'.
    apply Hnth in Hv as [-> Hi]. apply Hnth in Hv' as [-> Hi'].
    rewrite odometer_step_digits by (auto; lia).
    rewrite Nat2Z.inj_succ in *.
    destruct (Z.eqb_spec (Z.of_nat i + 1) (product counts)) as [E|_]; [lia|].
    rewrite Z.mod_small by lia. reflexivity.
  - intros Σ cb s. rewrite ForEachRow_spec by assumption.
    rewrite (fold_left_fmap (row_at t) cb), row_at_zip, Htrace. reflexivity.
Qed.

Lemma C1_witness :
  ForEachRow_ghost (table23 [10; 11; 12; 13; 14; 15])
    (fun idx _ acc => acc ++ [idx]) []
  = (row_major_nested_loop [2; 3], Ok tt).
Proof.
  refine (proj1 (C1_ForEachRow_visits_each_combination_once
                   (table23 [10; 11; 12; 13; 14; 15]) _ _ _)).
  - repeat constructor; simpl; lia.
  - reflexivity.
  - reflexivity.
Defined.

(** C2. The table with dimensions A (categories a0, a1) and B (categories
    b0, b1, b2), empty error and values 10..15 yields the six rows
    (a0,b0,10) ... (a1,b2,15) in this order; the program prints them after
    the header. *)
Theorem C2_round_trip_2_by_3 :
  ForEachRow (table23 [10; 11; 12; 13; 14; 15])
    (fun row acc => acc ++ [(cat_Label <$> row_Categories row, row_Count row)])
    []
  = ([(["a0"; "b0"], 10); (["a0"; "b1"], 11); (["a0"; "b2"], 12);
      (["a1"; "b0"], 13); (["a1"; "b1"], 14); (["a1"; "b2"], 15)], Ok tt)
  /\ main_simple (mkResponse (table23 [10; 11; 12; 13; 14; 15]) []) []
     = ([["A"; "B"; "count"];
         ["a0"; "b0"; "10"]; ["a0"; "b1"; "11"]; ["a0"; "b2"; "12"];
         ["a1"; "b0"; "13"]; ["a1"; "b1"; "14"]; ["a1"; "b2"; "15"]], Ok tt).
Proof. split; vm_compute; reflexivity. Qed.

(** C9. On a table with empty error whose dimensions all have a count of at
    least one equal to the number of their categories, [ForEachRow] invokes
    the callback once per element of the value list, whatever the length of
    that list: the number of invocations is [len(t.Values)], invocation [i]
    sees the row of cell [i mod product] with value number [i], and the
    index vector is all zeros again at every multiple of [product], after
    which the combinations repeat. *)
Theorem C9_callback_once_per_value (t : Table) :
  tbl_Error t = "" ->
  Forall populated (tbl_Dimensions t) ->
  let counts := dim_Count <$> tbl_Dimensions t in
  (forall Σ (cb : Row -> Σ -> Σ) s,
     ForEachRow t cb s
     = (fold_left (fun s i => cb (row_at t i) s)
          (seq 0 (length (tbl_Values t))) s, Ok tt))
  /\ ForEachRow t (fun _ n => S n) 0%nat = (length (tbl_Values t), Ok tt)
  /\ ForEachRow_ghost t (fun idx _ acc => acc ++ [idx]) []
     = (indices_at t <$> seq 0 (length (tbl_Values t)), Ok tt)
  /\ (forall i, Z.of_nat i mod product counts = 0 ->
        indices_at t i = replicate (length counts) 0)
  /\ (forall i, indices_at t (i + Z.to_nat (product counts)) = indices_at t i).
Proof.
  intros He Hp counts.
  pose proof (populated_counts_pos _ Hp) as Hpos. fold counts in Hpos.
  pose proof (product_pos _ Hpos) as HP.
  repeat split.
  - intros Σ cb s. apply ForEachRow_spec; assumption.
  - rewrite ForEachRow_spec by assumption.
    rewrite fold_left_count, length_seq. reflexivity.
  - rewrite ForEachRow_ghost_spec by assumption.
    rewrite fold_left_snoc. reflexivity.
  - intros i Hi. unfold indices_at. fold counts. rewrite Hi.
    apply digits_zero.
  - intros i. unfold indices_at. fold counts. f_equal.
    rewrite Nat2Z.inj_add, Z2Nat.id by lia.
    rewrite <- Z.add_mod_idemp_r, Z_mod_same_full, Z.add_0_r by lia.
    reflexivity.
Qed.

Lemma C9_witness :
  ForEachRow (table23 [10; 11; 12; 13; 14; 15; 16; 17]) (fun _ n => S n) 0%nat
  = (8%nat, Ok tt).
Proof.
  refine (proj1 (proj2
    (C9_callback_once_per_value (table23 [10; 11; 12; 13; 14; 15; 16; 17]) _ _))).
  - reflexivity.
  - repeat constructor; simpl; lia.
Defined.

(** C10. If every dimension's count equals the number of its categories and
    either the value list is empty or every count is at least one, no slice
    access of the row iteration is out of range: [ForEachRow] finishes, or
    panics with the table's error and nothing else. *)
Theorem C10_category_access_in_bounds {Σ} (t : Table) (cb : Row -> Σ -> Σ) s :
  Forall (fun d => dim_Count d = Z.of_nat (length (dim_Categories d)))
    (tbl_Dimensions t) ->
  tbl_Values t = [] \/ Forall (fun d => 1 <= dim_Count d) (tbl_Dimensions t) ->
  snd (ForEachRow t cb s) <> Panicked IndexOutOfRange
  /\ snd (ForEachRow t cb s)
     = if String.eqb (tbl_Error t) "" then Ok tt
       else Panicked (PanicString (tbl_Error t)).
Proof.
  intros Hinv Hcase.
  assert (snd (ForEachRow t cb s)
          = if String.eqb (tbl_Error t) "" then Ok tt
            else Panicked (PanicString (tbl_Error t))) as H.
  { destruct (String.eqb_spec (tbl_Error t) "") as [He|He].
    - destruct Hcase as [Hv|Hge].
      + rewrite ForEachRow_no_values by assumption. reflexivity.
      + rewrite ForEachRow_spec; [reflexivity | assumption |].
        apply Forall_forall. intros d Hd. split.
        * rewrite Forall_forall in Hge. specialize (Hge d Hd). lia.
        * rewrite Forall_forall in Hinv. apply Hinv, Hd.
    - rewrite ForEachRow_error by assumption. reflexivity. }
  split; [|exact H].
  rewrite H. destruct (String.eqb (tbl_Error t) ""); discriminate.
Qed.

Lemma C10_witness :
  snd (ForEachRow (table23 [10; 11; 12; 13; 14; 15; 16]) writeRow []) = Ok tt.
Proof.
  refine (proj2 (C10_category_access_in_bounds
                   (table23 [10; 11; 12; 13; 14; 15; 16]) writeRow [] _ _)).
  - repeat constructor.
  - right. repeat constructor; simpl; lia.
Defined.

(** Outside the precondition of C10: a dimension without categories and a
    value to iterate over. *)
Example empty_dimension_out_of_range :
  snd (ForEachRow (mkTable [mkDimension 0 [] (mkVariable "A" "A")] [7] "")
         writeRow [])
  = Panicked IndexOutOfRange.
Proof. reflexivity. Qed.

(** ** Properties of the value count, of errors and of the member loops *)

(** C3, as stated, fails: with counts [2,3] (product 6) five values and seven
    values are both processed to the end without any error, by the
    in-memory program and by the streaming one; the seventh row repeats the
    first combination of categories. *)
Lemma C3_counterexample :
  product (dim_Count <$> [dimA; dimB]) = 6
  /\ main_simple (mkResponse (table23 [10; 11; 12; 13; 14]) []) []
     = ([["A"; "B"; "count"];
         ["a0"; "b0"; "10"]; ["a0"; "b1"; "11"]; ["a0"; "b2"; "12"];
         ["a1"; "b0"; "13"]; ["a1"; "b1"; "14"]], Ok tt)
  /\ main_simple (mkResponse (table23 [10; 11; 12; 13; 14; 15; 16]) []) []
     = ([["A"; "B"; "count"];
         ["a0"; "b0"; "10"]; ["a0"; "b1"; "11"]; ["a0"; "b2"; "12"];
         ["a1"; "b0"; "13"]; ["a1"; "b1"; "14"]; ["a1"; "b2"; "15"];
         ["a0"; "b0"; "16"]], Ok tt)
  /\ run (jResponse [("dimensions", jDimensions23);
                     ("values", jValues [10; 11; 12; 13; 14])])
     = (finished [["A"; "B"; "count"];
                  ["a0"; "b0"; "10"]; ["a0"; "b1"; "11"]; ["a0"; "b2"; "12"];
                  ["a1"; "b0"; "13"]; ["a1"; "b1"; "14"]], Ok tt)
  /\ run (jResponse [("dimensions", jDimensions23);
                     ("values", jValues [10; 11; 12; 13; 14; 15; 16])])
     = (finished [["A"; "B"; "count"];
                  ["a0"; "b0"; "10"]; ["a0"; "b1"; "11"]; ["a0"; "b2"; "12"];
                  ["a1"; "b0"; "13"]; ["a1"; "b1"; "14"]; ["a1"; "b2"; "15"];
                  ["a0"; "b0"; "16"]], Ok tt).
Proof. repeat split; vm_compute; reflexivity. Qed.

(** C3, amended.  On a table with empty error whose dimensions obey
    [count == length(categories)], feeding exactly [product counts] values
    completes cleanly.  When moreover every count is at least one, feeding
    one fewer or one more value completes cleanly as well: no error is
    raised, the header and one record per value fed are written (cell
    numbers wrap around after [product]), and the streaming program writes
    the same records. *)
Theorem C3_value_count_is_not_checked (t : Table) :
  tbl_Error t = "" ->
  Forall (fun d => dim_Count d = Z.of_nat (length (dim_Categories d)))
    (tbl_Dimensions t) ->
  let P := product (dim_Count <$> tbl_Dimensions t) in
  let n := Z.of_nat (length (tbl_Values t)) in
  (n = P -> snd (main_simple (mkResponse t []) []) = Ok tt)
  /\ (Forall (fun d => 1 <= dim_Count d) (tbl_Dimensions t) ->
      n = P - 1 \/ n = P + 1 ->
      let rows := csv_rows (tbl_Dimensions t) 0 (tbl_Values t) in
      main_simple (mkResponse t []) [] = (Header t :: rows, Ok tt)
      /\ length rows = length (tbl_Values t)
      /\ forall jd,
           decode_Dimensions jd = Some (Some (tbl_Dimensions t)) ->
           run (jResponse [("dimensions", jd);
                           ("values", jValues (tbl_Values t))])
           = (finished (Header t :: rows), Ok tt)).
Proof.
  intros He Hinv P n.
  assert (Forall (fun d => 1 <= dim_Count d) (tbl_Dimensions t) ->
          Forall populated (tbl_Dimensions t)) as Hpop.
  { intros Hge. apply Forall_forall. intros d Hd. split.
    - rewrite Forall_forall in Hge. specialize (Hge d Hd). lia.
    - rewrite Forall_forall in Hinv. apply Hinv, Hd. }
  split.
  - intros Hn.
    assert (Forall (fun c => 0 <= c) (dim_Count <$> tbl_Dimensions t)) as Hnn.
    { apply Forall_fmap. eapply Forall_impl; [exact Hinv|].
      intros d Hd. unfold compose; simpl in *. lia. }
    destruct (nonneg_counts_product _ Hnn) as [Hpos|Hzero].
    + rewrite main_simple_spec; [reflexivity | | exact He].
      apply Hpop. pose proof (proj1 (Forall_fmap _ _ _) Hpos) as Hpos'.
      eapply Forall_impl; [exact Hpos'|].
      intros d Hd. unfold compose in Hd; simpl in Hd. lia.
    + assert (tbl_Values t = []) as Hv
        by (apply length_zero_iff_nil; unfold n, P in Hn; lia).
      unfold main_simple. simpl. unfold bind, modify.
      rewrite ForEachRow_no_values by assumption. reflexivity.
  - intros Hge _ rows. specialize (Hpop Hge). repeat split.
    + apply main_simple_spec; assumption.
    + apply csv_rows_length.
    + intros jd Hjd. apply run_dimensions_values; assumption.
Qed.

Lemma C3_witness :
  main_simple (mkResponse (table23 [10; 11; 12; 13; 14; 15; 16]) []) []
  = (Header (table23 [10; 11; 12; 13; 14; 15; 16])
       :: csv_rows [dimA; dimB] 0 [10; 11; 12; 13; 14; 15; 16], Ok tt).
Proof.
  refine (proj1 (proj2 (C3_value_count_is_not_checked
                          (table23 [10; 11; 12; 13; 14; 15; 16]) _ _) _ _)).
  - reflexivity.
  - repeat constructor.
  - repeat constructor; simpl; lia.
  - right. reflexivity.
Defined.




(** The test of [decodeErrorsPanicIfAny] is on the joined text, not on the
    number of errors: a list of errors whose messages are all empty is let
    through, where the in-memory program stops on [len(gqlResp.Errors) > 0]. *)
Example errors_with_empty_messages_pass :
  run (JObject [("errors", jErrors [""]);
                ("data", jData [("dimensions", jDimensions23);
                                ("values", jValues [10])])])
  = (finished [["A"; "B"; "count"]; ["a0"; "b0"; "10"]], Ok tt)
  /\ snd (main_simple (mkResponse (table23 [10]) [mkGraphqlError ""]) [])
     = Panicked (FatalUnexpectedError [""]).
Proof. split; vm_compute; reflexivity. Qed.







(** C7. If the [values] member of the table object is met while no
    [dimensions] member has been read, the run fails and nothing has been
    written: the failure is "values received before dimensions", unless an
    [error] member met even earlier has already failed the run. *)
Theorem C7_values_before_dimensions_is_fatal pre v post r2 r1 r0 :
  Forall (fun m => fst m <> "dimensions" /\ fst m <> "values") pre ->
  exists st' pn,
    run (jEnvelope (pre ++ ("values", v) :: post) r2 r1 r0)
    = (st', Panicked pn)
    /\ st_w st' = []
    /\ (pn = PanicString "values received before dimensions"
        \/ (exists msg, pn = PanicString ("Table blocked: " +:+ msg))
        \/ pn = StructuralError)
    /\ (Forall (fun m => fst m <> "error") pre ->
        pn = PanicString "values received before dimensions").
Proof.
  intros Hpre.
  destruct (loop_values_before_dimensions None
              [InObject None r2; InObject None r1; InObject None r0]
              pre v post Hpre None [])
    as (st' & pn & Hrun & Hw & Hkind & Hmsg).
  exists st', pn. split; [|auto].
  apply run_envelope_panic, Hrun.
Qed.

Lemma C7_witness :
  exists st' pn,
    run (jEnvelope ([("extra", JNull)] ++ ("values", jValues [10; 11])
                    :: [("dimensions", jDimensions23)]) [] [] [])
    = (st', Panicked pn)
    /\ st_w st' = []
    /\ (pn = PanicString "values received before dimensions"
        \/ (exists msg, pn = PanicString ("Table blocked: " +:+ msg))
        \/ pn = StructuralError)
    /\ (Forall (fun m => fst m <> "error") [("extra", JNull)] ->
        pn = PanicString "values received before dimensions").
Proof.
  apply (C7_values_before_dimensions_is_fatal [("extra", JNull)]).
  repeat constructor; discriminate.
Defined.

(** C8. Whenever [decodeValues] is entered, the first record it writes is
    the header: the variable label of each dimension, in dimension order,
    then "count"; every record written after it has [len(dims) + 1] fields.
    On an array of numbers and dimensions with as many categories as their
    positive count says, the records after the header are, per value, the
    labels of the cell's categories in dimension order followed by the
    value.  The in-memory program writes [Header] first and records of the
    same width; for any decoded table these records are, for the cells in
    turn, the label of the cell's category in each dimension, in dimension
    order, followed by the cell's count, and there is one per value when
    the program returns normally. *)
Theorem C8_header_then_rows_of_fixed_width :
  (forall dims st,
     exists rows,
       st_w (fst (decodeValues dims st))
       = st_w st
         ++ (((fun d => var_Label (dim_Variable d)) <$> dims) ++ ["count"])
         :: rows
       /\ Forall (fun row => length row = S (length dims)) rows)
  /\ (forall dims values input stk w,
        Forall populated dims ->
        decodeValues dims (inArray input (JNumber <$> values) stk w)
        = (inArray input [] stk
             (w ++ csv_header dims :: csv_rows dims 0 values), Ok tt))
  /\ (forall t,
        exists rows,
          fst (main_simple (mkResponse t []) [])
          = (((fun d => var_Label (dim_Variable d)) <$> tbl_Dimensions t)
             ++ ["count"]) :: rows
          /\ Forall (fun row => length row = S (length (tbl_Dimensions t)))
               rows)
  /\ (forall t,
        exists k,
          (k <= length (tbl_Values t))%nat
          /\ fst (main_simple (mkResponse t []) [])
             = (((fun d => var_Label (dim_Variable d)) <$> tbl_Dimensions t)
                ++ ["count"])
               :: ((fun i =>
                      (cat_Label
                         <$> categories_at (tbl_Dimensions t)
                               (indices_by_radix t i))
                      ++ [Itoa (default 0 (tbl_Values t !! i))])
                     <$> seq 0 k)
          /\ (snd (main_simple (mkResponse t []) []) = Ok tt ->
              k = length (tbl_Values t))).
Proof.
  split; [|split; [|split]].
  - intros dims st. apply decodeValues_shape.
  - intros dims values input stk w Hp. apply decodeValues_spec, Hp.
  - intros t. apply (main_simple_shape t []). reflexivity.
  - intros t. destruct (main_simple_any t) as (k & Hk & Hmain).
    exists k. split; [exact Hk|]. rewrite Hmain. split; [reflexivity|].
    simpl. destruct (negb (String.eqb (tbl_Error t) "")); [discriminate|].
    destruct (Nat.eqb_spec k (length (tbl_Values t))); [auto|discriminate].
Qed.

Lemma C8_witness :
  decodeValues [dimA; dimB] (inArray None (JNumber <$> [10; 11]) [] [])
  = (inArray None [] []
       ([] ++ csv_header [dimA; dimB] :: csv_rows [dimA; dimB] 0 [10; 11]),
     Ok tt).
Proof.
  apply (proj1 (proj2 C8_header_then_rows_of_fixed_width)).
  repeat constructor; simpl; lia.
Defined.

(** ** Further properties of the in-memory program *)

(** X1. The inner loop of [ForEachRow] is one step of the odometer, for
    any counts, zero and negative ones included: on slices of equal length
    it never indexes outside them, keeps the length of [dimIndices], and
    leaves the indices that incrementing the last counter, resetting a
    counter that reaches its count and carrying to the left produces. *)
Theorem X1_carry_loop_is_one_odometer_step (dimCounts dimIndices : list Z) :
  length dimCounts = length dimIndices ->
  carry dimCounts dimIndices (length dimIndices)
  = Ok (snd (odometer_step dimCounts dimIndices))
  /\ length (snd (odometer_step dimCounts dimIndices)) = length dimIndices.
Proof.
  intros Hlen. split.
  - apply carry_odometer_step, Hlen.
  - apply odometer_step_length, Hlen.
Qed.

Lemma X1_witness :
  carry [2; 0; 3] [1; 0; 2] (length [1; 0; 2])
  = Ok (snd (odometer_step [2; 0; 3] [1; 0; 2]))
  /\ length (snd (odometer_step [2; 0; 3] [1; 0; 2])) = length [1; 0; 2].
Proof. apply (X1_carry_loop_is_one_odometer_step [2; 0; 3] [1; 0; 2]). reflexivity. Defined.

(** X2. [ForEachRow] takes [dim.Count], not the number of categories, as
    the radix of a dimension, a count below one acting as one.  On a table
    with empty error in which every dimension lists at least
    [max(1, count)] categories the call never panics; the callback runs
    once per value, and invocation [i] sees, in each dimension, the category
    at the mixed-radix digit of [i] for these radices, so that categories at
    or beyond the count are never shown. *)
Theorem X2_count_is_the_radix (t : Table) :
  tbl_Error t = "" ->
  Forall enough_categories (tbl_Dimensions t) ->
  (forall Σ (cb : Row -> Σ -> Σ) s,
     ForEachRow t cb s
     = (fold_left (fun s i => cb (row_by_radix t i) s)
          (seq 0 (length (tbl_Values t))) s, Ok tt))
  /\ (forall i,
        Forall2 (fun d k => 0 <= k < radix d /\
                            k < Z.of_nat (length (dim_Categories d)))
          (tbl_Dimensions t) (indices_by_radix t i)).
Proof.
  intros He Hen. split.
  - intros Σ cb s. apply ForEachRow_by_radix; assumption.
  - intros i.
    pose proof (indices_by_radix_valid t i) as Hv.
    unfold valid_indices, radixes in Hv. apply Forall2_fmap_l in Hv.
    revert Hen. induction Hv as [|d k ds ks Hk _ IH]; intros Hen;
      constructor.
    + apply Forall_cons_1 in Hen as [Hd _]. unfold enough_categories in Hd.
      unfold compose in Hk. lia.
    + apply IH. apply Forall_cons_1 in Hen as [_ Hen]. exact Hen.
Qed.

Lemma X2_witness :
  ForEachRow (tableShort [1; 2; 3; 4; 5]) writeRow []
  = (fold_left (fun s i => writeRow (row_by_radix (tableShort [1; 2; 3; 4; 5]) i) s)
       (seq 0 5) [], Ok tt).
Proof.
  refine (proj1 (X2_count_is_the_radix (tableShort [1; 2; 3; 4; 5]) _ _)
            _ writeRow []).
  - reflexivity.
  - repeat constructor; unfold enough_categories, radix; simpl; lia.
Defined.

(** ** Further properties of the streaming program *)

(** X3. [decodeErrorsPanicIfAny] decides on the text it has built, not on
    the number of errors: once the errors have been decoded it returns
    normally exactly when every message is empty, and panics with the built
    text otherwise.  The text skips empty messages at the front and, from
    the first non-empty message on, is the messages joined by newlines. *)
Theorem X3_errors_reported_iff_some_message :
  (forall input ev errs rest stk w,
     decode_graphqlErrs ev = Some errs ->
     (Forall (fun e => err_Message e = "") errs ->
      decodeErrorsPanicIfAny (inObject input (Some ev) rest stk w)
      = (inObject input None rest stk w, Ok tt))
     /\ (~ Forall (fun e => err_Message e = "") errs ->
         decodeErrorsPanicIfAny (inObject input (Some ev) rest stk w)
         = (inObject input None rest stk w,
            Panicked (PanicString (joinMessages errs)))))
  /\ (forall e errs,
        err_Message e = "" -> joinMessages (e :: errs) = joinMessages errs)
  /\ (forall e errs,
        err_Message e <> "" ->
        joinMessages (e :: errs)
        = String.concat newline (err_Message <$> (e :: errs))).
Proof.
  split; [|split].
  - intros input ev errs rest stk w Hdec. split.
    + intros Hall.
      unfold decodeErrorsPanicIfAny, bind, Decode, bind, nextValue. simpl.
      rewrite Hdec. simpl.
      rewrite (proj2 (joinMessages_empty_iff errs) Hall). reflexivity.
    + intros Hsome.
      unfold decodeErrorsPanicIfAny, bind, Decode, bind, nextValue. simpl.
      rewrite Hdec. simpl.
      rewrite nonempty_length_pos; [reflexivity|].
      intros Hempty. apply Hsome, joinMessages_empty_iff, Hempty.
  - intros e errs He. apply joinMessages_skip_empty, He.
  - intros e errs He. apply joinMessages_concat, He.
Qed.

Lemma X3_witness :
  decodeErrorsPanicIfAny
    (inObject None (Some (jErrors [""; ""])) [] [] [])
  = (inObject None None [] [] [], Ok tt)
  /\ decodeErrorsPanicIfAny
       (inObject None (Some (jErrors [""; "boom"; ""; "bang"])) [] [] [])
     = (inObject None None [] [] [],
        Panicked (PanicString
                    (joinMessages [mkGraphqlError ""; mkGraphqlError "boom";
                                   mkGraphqlError ""; mkGraphqlError "bang"])))
  /\ joinMessages [mkGraphqlError "boom"; mkGraphqlError ""; mkGraphqlError "bang"]
     = String.concat newline ["boom"; ""; "bang"].
Proof.
  split; [|split].
  - refine (proj1 (proj1 X3_errors_reported_iff_some_message
                     None (jErrors [""; ""])
                     [mkGraphqlError ""; mkGraphqlError ""] [] [] [] _) _).
    + reflexivity.
    + repeat constructor.
  - refine (proj2 (proj1 X3_errors_reported_iff_some_message
                     None (jErrors [""; "boom"; ""; "bang"])
                     [mkGraphqlError ""; mkGraphqlError "boom";
                      mkGraphqlError ""; mkGraphqlError "bang"] [] [] [] _) _).
    + reflexivity.
    + intros H. apply Forall_cons_1 in H as [_ H].
      apply Forall_cons_1 in H as [H _]. discriminate.
  - refine (proj2 (proj2 X3_errors_reported_iff_some_message)
              (mkGraphqlError "boom") _ _).
    discriminate.
Defined.

(** X4. A table object without cell values.  With no [values] member
    (the [error] member, if any, being [null] and [dimensions] well-formed)
    nothing is written and the run goes on as on a response without [data];
    the same holds when [values] is [null] and follows the dimensions.  An
    empty [values] array is different: the header line is written, and
    nothing after it. *)
Theorem X4_table_without_cell_values :
  (forall members r2 r1 r0,
     Forall without_values members ->
     run (jEnvelope members r2 r1 r0) = run (JObject r0))
  /\ (forall jd ds post r2 r1 r0,
        decode_Dimensions jd = Some (Some ds) ->
        Forall without_values post ->
        run (jEnvelope (("dimensions", jd) :: ("values", JNull) :: post)
               r2 r1 r0)
        = run (JObject r0))
  /\ (forall jd ds post r2 r1,
        decode_Dimensions jd = Some (Some ds) ->
        Forall without_values post ->
        run (jEnvelope (("dimensions", jd) :: ("values", JArray []) :: post)
               r2 r1 [])
        = (finished [csv_header ds], Ok tt)).
Proof.
  split; [|split].
  - intros members r2 r1 r0 Hm.
    destruct (loop_without_values None
                [InObject None r2; InObject None r1; InObject None r0]
                members Hm None None [])
      as (p' & dims' & Hrun).
    rewrite (run_envelope_returns members r2 r1 r0 p' [] dims' Hrun).
    rewrite run_object. reflexivity.
  - intros jd ds post r2 r1 r0 Hjd Hpost.
    destruct (loop_without_values None
                [InObject None r2; InObject None r1; InObject None r0]
                post Hpost (Some ds) (Some JNull) [])
      as (p' & dims' & Hrun).
    rewrite (run_envelope_returns _ r2 r1 r0 p' [] dims').
    + rewrite run_object. reflexivity.
    + unfold inTable.
      erewrite forMore_step by (apply table_field_dimensions, Hjd).
      erewrite forMore_step by (apply table_field_values_null).
      exact Hrun.
  - intros jd ds post r2 r1 Hjd Hpost.
    destruct (loop_without_values None
                [InObject None r2; InObject None r1; InObject None []]
                post Hpost (Some ds) None ([] ++ [csv_header ds]))
      as (p' & dims' & Hrun).
    rewrite (run_envelope_returns _ r2 r1 [] p' [csv_header ds] dims').
    + reflexivity.
    + unfold inTable.
      erewrite forMore_step by (apply table_field_dimensions, Hjd).
      erewrite forMore_step by (apply table_field_values_empty).
      exact Hrun.
Qed.

Lemma X4_witness :
  run (jEnvelope [("dimensions", jDimensions23); ("error", JNull)] [] [] [])
  = run (JObject [])
  /\ run (jEnvelope [("dimensions", jDimensions23); ("values", JNull);
                     ("error", JNull)] [] [] [])
     = run (JObject [])
  /\ run (jEnvelope [("dimensions", jDimensions23); ("values", JArray []);
                     ("error", JNull)] [] [] [])
     = (finished [csv_header [dimA; dimB]], Ok tt).
Proof.
  split; [|split].
  - apply (proj1 X4_table_without_cell_values).
    repeat constructor; try discriminate.
    intros _. vm_compute. eauto.
  - apply (proj1 (proj2 X4_table_without_cell_values) jDimensions23
             [dimA; dimB]); [reflexivity|].
    repeat constructor; discriminate.
  - apply (proj2 (proj2 X4_table_without_cell_values) jDimensions23
             [dimA; dimB]); [reflexivity|].
    repeat constructor; discriminate.
Defined.

(** X5. A blocked table whose members come in the order of the query
    ([dimensions], [values], [error]) with [values] being [null]: when the
    dimensions decode to a slice that is not [nil] the run fails with
    "Table blocked: " and the message of the server; when [dimensions] is
    [null] the run fails with "values received before dimensions" instead
    and the message of the server is never read.  Nothing is written in
    either case. *)
Theorem X5_blocked_table_in_query_order jd dims msg post r2 r1 r0 :
  decode_Dimensions jd = Some dims ->
  snd (run (jEnvelope (("dimensions", jd) :: ("values", JNull)
                       :: ("error", JString msg) :: post) r2 r1 r0))
  = Panicked (PanicString
                (match dims with
                 | Some _ => "Table blocked: " +:+ msg
                 | None => "values received before dimensions"
                 end))
  /\ st_w (fst (run (jEnvelope (("dimensions", jd) :: ("values", JNull)
                               :: ("error", JString msg) :: post) r2 r1 r0)))
     = [].
Proof.
  intros Hjd.
  assert (exists st',
            forMore decodeTableFields_field None
              (inTable (("dimensions", jd) :: ("values", JNull)
                        :: ("error", JString msg) :: post) r2 r1 r0 [])
            = (st', Panicked (PanicString
                                (match dims with
                                 | Some _ => "Table blocked: " +:+ msg
                                 | None => "values received before dimensions"
                                 end)))
            /\ st_w st' = []) as (st' & Hrun & Hw).
  { unfold inTable.
    erewrite forMore_step by (apply table_field_dimensions, Hjd).
    destruct dims as [ds|].
    - erewrite forMore_step by (apply table_field_values_null).
      eexists. split;
        [ apply forMore_panic;
          apply (table_field_error None _ (Some ds) (JString msg))
        | reflexivity ].
    - eexists. split; [apply forMore_panic, table_field_values_nil|].
      reflexivity. }
  rewrite (run_envelope_panic _ r2 r1 r0 st' _ Hrun). simpl. auto.
Qed.

Lemma X5_witness :
  snd (run (jEnvelope (("dimensions", JNull) :: ("values", JNull)
                       :: ("error", JString "blocked") :: []) [] [] []))
  = Panicked (PanicString "values received before dimensions")
  /\ snd (run (jEnvelope (("dimensions", JArray []) :: ("values", JNull)
                          :: ("error", JString "blocked") :: []) [] [] []))
     = Panicked (PanicString ("Table blocked: " +:+ "blocked")).
Proof.
  split.
  - refine (proj1 (X5_blocked_table_in_query_order JNull None
                     "blocked" [] [] [] [] _)).
    reflexivity.
  - refine (proj1 (X5_blocked_table_in_query_order (JArray []) (Some [])
                     "blocked" [] [] [] [] _)).
    reflexivity.
Defined.

(** X6. The two programs agree on the responses the server sends for the
    query.  Take a response whose table object holds the dimensions,
    spelled with the members the query selects, and then an array of
    numbers, every dimension having as many categories as its positive
    count says, counts and numbers being Go [int]s, and any other member of
    the table object being one that no field of [Table] is decoded from.
    The in-memory program, from the decoding of the response on, and the
    streaming program both return normally and write exactly the same
    records: the header and one record per value, for any number of
    values. *)
Theorem X6_streaming_agrees_with_in_memory dims values u0 u1 u2 :
  Forall populated dims ->
  Forall (fun d => is_int (dim_Count d)) dims ->
  Forall is_int values ->
  Forall unrelated u0 -> Forall unrelated u1 -> Forall unrelated u2 ->
  main_decode
    (jResponse (u0 ++ ("dimensions", jsonDimensions dims)
                   :: u1 ++ ("values", jValues values) :: u2)) []
  = (csv_header dims :: csv_rows dims 0 values, Ok tt)
  /\ run (jResponse (u0 ++ ("dimensions", jsonDimensions dims)
                        :: u1 ++ ("values", jValues values) :: u2))
     = (finished (csv_header dims :: csv_rows dims 0 values), Ok tt).
Proof.
  intros Hp Hc Hv H0 H1 H2. split.
  - unfold main_decode.
    rewrite decode_Response_dimensions_values by assumption.
    apply (main_simple_spec (mkTable dims values "")); [exact Hp|reflexivity].
  - unfold jResponse.
    rewrite (run_dimensions_values_then (jsonDimensions dims) dims
               (jValues values) (Some values)).
    + reflexivity.
    + apply into_Dimensions_json, Hc.
    + eapply Forall_impl; [exact H0|]. apply unrelated_passed_over.
    + eapply Forall_impl; [exact H1|]. apply unrelated_passed_over.
    + eapply Forall_impl; [exact H2|]. apply unrelated_passed_over.
    + right. exists values. auto.
Qed.

Lemma X6_witness :
  main_decode
    (jResponse ([("__typename", JString "Table")]
                ++ ("dimensions", jsonDimensions [dimA; dimB])
                :: []
                ++ ("values", jValues [10; 11; 12; 13])
                :: [("error", JNull)])) []
  = (csv_header [dimA; dimB] :: csv_rows [dimA; dimB] 0 [10; 11; 12; 13],
     Ok tt)
  /\ run (jResponse ([("__typename", JString "Table")]
                     ++ ("dimensions", jsonDimensions [dimA; dimB])
                     :: []
                     ++ ("values", jValues [10; 11; 12; 13])
                     :: [("error", JNull)]))
     = (finished (csv_header [dimA; dimB]
                    :: csv_rows [dimA; dimB] 0 [10; 11; 12; 13]), Ok tt).
Proof.
  apply (X6_streaming_agrees_with_in_memory [dimA; dimB] [10; 11; 12; 13]
           [("__typename", JString "Table")] [] [("error", JNull)]).
  - repeat constructor; simpl; lia.
  - repeat constructor; simpl; lia.
  - repeat constructor; lia.
  - repeat constructor; simpl; try discriminate.
  - constructor.
  - repeat constructor; simpl; try discriminate.
Defined.



(** X8. [null] in place of an object.  A [data] member that is [null] is
    ignored, and so is a [table] member that is [null]: the response is
    processed as if it had no [data] member, whatever else the objects
    hold.  A [dataset] member that is [null] is fatal, with nothing
    written. *)
Theorem X8_null_in_place_of_an_object :
  (forall rest, run (JObject (("data", JNull) :: rest)) = run (JObject rest))
  /\ (forall r2 r1 r0,
        run (JObject
               (("data",
                 JObject (("dataset", JObject (("table", JNull) :: r2)) :: r1))
                  :: r0))
        = run (JObject r0))
  /\ (forall r1 r0,
        snd (run (JObject
                    (("data", JObject (("dataset", JNull) :: r1)) :: r0)))
        = Panicked (PanicString
                      ("dataset object expected but " +:+ dquote +:+ "null"
                       +:+ dquote +:+ " found"))
        /\ st_w (fst (run (JObject
                             (("data", JObject (("dataset", JNull) :: r1))
                                :: r0))))
           = []).
Proof.
  split; [|split].
  - apply run_data_null.
  - apply run_table_null.
  - intros r1 r0. rewrite run_dataset_null. split; reflexivity.
Qed.

(** ** The JavaScript example *)

(** X9.  [processCounts] of the JavaScript example builds, cell by cell, the
    rows that [Table.ForEachRow] hands to its callback.  For a table whose
    dimensions hold a category for every index their count allows, and have
    no variable labelled [__proto__], it returns one object per value;
    object [i] is [js_row] of the row the Go callback sees at invocation [i]
    (when the table carries no error, which the script does not look at).
    In that object [count] holds the cell value, the keys are the columns of
    [Header] as a set, and the column of a dimension holds the label of the
    row's category for it, unless a later dimension or the count assigns
    the same name. *)
Theorem X9_processCounts_builds_the_rows_of_ForEachRow (t : Table) :
  Forall enough_categories (tbl_Dimensions t) ->
  Forall plain_label (tbl_Dimensions t) ->
  JS.processCounts t
  = JS.Returns ((fun i => js_row t (row_by_radix t i))
                  <$> seq 0 (length (tbl_Values t)))
  /\ (tbl_Error t = "" ->
      forall Σ (cb : Row -> Σ -> Σ) s,
        ForEachRow t cb s
        = (fold_left (fun s i => cb (row_by_radix t i) s)
             (seq 0 (length (tbl_Values t))) s, Ok tt))
  /\ (forall rows i o,
        JS.processCounts t = JS.Returns rows -> rows !! i = Some o ->
        o !! "count" = JS.Number <$> tbl_Values t !! i
        /\ dom o = list_to_set (Header t)
        /\ forall j d c,
             tbl_Dimensions t !! j = Some d ->
             row_Categories (row_by_radix t i) !! j = Some c ->
             var_Label (dim_Variable d) <> "count" ->
             var_Label (dim_Variable d)
               ∉ (fun d => var_Label (dim_Variable d))
                   <$> drop (S j) (tbl_Dimensions t) ->
             o !! var_Label (dim_Variable d)
             = Some (JS.String_ (cat_Label c))).
Proof.
  intros Hen Hpl. split; [apply processCounts_by_radix; assumption|]. split.
  - intros He Σ cb s. apply ForEachRow_by_radix; assumption.
  - intros rows i o Hrows Hi.
    rewrite (processCounts_by_radix t Hen Hpl) in Hrows.
    injection Hrows as <-.
    apply list_lookup_fmap_Some in Hi as (i' & -> & Hi').
    apply lookup_seq in Hi' as [-> Hlt]. simpl in Hlt |- *.
    split; [|split].
    + rewrite js_row_count. simpl.
      destruct (lookup_lt_is_Some_2 (tbl_Values t) i Hlt) as [v ->].
      reflexivity.
    + apply js_row_dom, row_by_radix_length.
    + intros j d c Hd Hc Hcount Hlater.
      apply (js_row_column t (row_by_radix t i) j d c);
        auto using row_by_radix_length.
Qed.

Lemma X9_witness :
  JS.processCounts (table23 [10; 11; 12; 13; 14; 15]%Z)
  = JS.Returns
      ((fun i => js_row (table23 [10; 11; 12; 13; 14; 15]%Z)
                   (row_by_radix (table23 [10; 11; 12; 13; 14; 15]%Z) i))
         <$> seq 0 6).
Proof.
  refine (proj1 (X9_processCounts_builds_the_rows_of_ForEachRow
                   (table23 [10; 11; 12; 13; 14; 15]%Z) _ _)).
  - repeat constructor; unfold enough_categories, radix; simpl; lia.
  - repeat constructor; discriminate.
Defined.

(** X10.  A row object of [processCounts] never has more keys than the CSV
    header of the Go programs has columns, whatever the table holds.  It
    can have as many only if the header names are pairwise different: two
    variables with one label, or a variable labelled [count], cost every
    row a column.  When the names are pairwise different and no variable is
    labelled [__proto__], it has exactly as many. *)
Theorem X10_colliding_labels_lose_a_column (t : Table) rows o :
  JS.processCounts t = JS.Returns rows -> o ∈ rows ->
  (size o <= length (Header t))%nat
  /\ (size o = length (Header t) -> NoDup (Header t))
  /\ (Forall plain_label (tbl_Dimensions t) -> NoDup (Header t) ->
      size o = length (Header t)).
Proof.
  intros Hrows Ho.
  destruct (processCounts_rows t rows o Hrows Ho)
    as (indices & n & Hlen & Hpop).
  destruct (populateRow_dom t indices n o Hlen Hpop) as [Hsub Heq].
  destruct (list_to_set_size (Header t)) as [Hle Hnd].
  apply subseteq_size in Hsub. rewrite size_dom in Hsub.
  split; [lia|]. split.
  - intros Hsize. apply Hnd. lia.
  - intros Hplain Hnodup. rewrite <- size_dom, (Heq Hplain).
    apply size_list_to_set, Hnodup.
Qed.

Lemma X10_witness :
  (size (js_row (table23 [10; 11; 12; 13; 14; 15]%Z)
           (row_by_radix (table23 [10; 11; 12; 13; 14; 15]%Z) 0))
   <= length (Header (table23 [10; 11; 12; 13; 14; 15]%Z)))%nat.
Proof.
  refine (proj1 (X10_colliding_labels_lose_a_column
                   (table23 [10; 11; 12; 13; 14; 15]%Z)
                   ((fun i => js_row (table23 [10; 11; 12; 13; 14; 15]%Z)
                                (row_by_radix
                                   (table23 [10; 11; 12; 13; 14; 15]%Z) i))
                      <$> seq 0 6)
                   _ _ _)).
  - apply processCounts_by_radix.
    + repeat constructor; unfold enough_categories, radix; simpl; lia.
    + repeat constructor; discriminate.
  - apply list_elem_of_fmap. exists 0%nat. split; [reflexivity|].
    apply elem_of_seq. simpl. lia.
Defined.

(** X11.  A dimension without categories fails on the first cell.  When the
    table has a value to iterate over and some dimension has an empty
    category list, [processCounts] throws the [TypeError] of reading
    [undefined.label] and returns no row, and [Table.ForEachRow] panics
    without invoking the callback: with the table's error if there is one,
    with an index out of range otherwise. *)
Theorem X11_dimension_without_categories_fails_first_cell (t : Table) :
  tbl_Values t <> [] ->
  Exists (fun d => dim_Categories d = []) (tbl_Dimensions t) ->
  JS.processCounts t = JS.ThrowsTypeError
  /\ forall Σ (cb : Row -> Σ -> Σ) s,
       ForEachRow t cb s
       = (s, Panicked (if String.eqb (tbl_Error t) ""
                       then IndexOutOfRange
                       else PanicString (tbl_Error t))).
Proof.
  intros Hv He.
  destruct (tbl_Values t) as [|v vs] eqn:Hvs; [congruence|]. split.
  - unfold JS.processCounts. rewrite Hvs. simpl seq.
    cbn [JS.processCounts_for]. unfold JS.populateRow.
    replace ((fun _ => 0) <$> tbl_Dimensions t)
      with (replicate (length (tbl_Dimensions t)) 0).
    + rewrite (populateRow_forEach_empty t (tbl_Dimensions t) [] eq_refl He).
      reflexivity.
    + clear. induction (tbl_Dimensions t) as [|d l IH]; [reflexivity|].
      rewrite fmap_cons. cbn [length replicate]. f_equal. exact IH.
  - intros Σ cb s. unfold ForEachRow, ForEachRow_ghost.
    destruct (String.eqb (tbl_Error t) ""); [|reflexivity].
    cbn [negb]. rewrite Hvs. cbn [length seq ForEachRow_range]. unfold bind at 1. unfold lift at 1.
    unfold populateRow.
    rewrite (populateRow_range_empty t (tbl_Dimensions t) [] eq_refl He).
    reflexivity.
Qed.

Lemma X11_witness :
  JS.processCounts tableEmptied = JS.ThrowsTypeError
  /\ forall Σ (cb : Row -> Σ -> Σ) s,
       ForEachRow tableEmptied cb s = (s, Panicked IndexOutOfRange).
Proof.
  refine (X11_dimension_without_categories_fails_first_cell tableEmptied _ _).
  - discriminate.
  - apply Exists_cons_tl, Exists_cons_hd. reflexivity.
Defined.
